(** * Cloudflare DNS migrate tool: the migration engine over MemStorage

    A shallow embedding of [server/storage.ts] (class [MemStorage]) and of
    the migration routes of [server/routes.ts] ([POST /api/migration/start],
    [processMigration], [GET /api/migration/:jobId/progress],
    [GET /api/config]), followed by the properties of the engine.

    Conventions of the embedding.
    - JavaScript [Map]s whose iteration order is observed ([dnsRecords],
      listed with [values()]) are association lists in insertion order;
      the maps that are only read by key ([migrationJobs],
      [migrationRecordStatuses]) are [gmap]s.
    - Integers that the code only counts with ([length], [++], [-]) stay
      exact in a JavaScript double, so they are [Z]; the one place where
      doubles round, the percentage [(c + f) / total * 100], is computed
      in binary64 with the primitive floats.
    - [randomUUID()], [new Date()] and the Cloudflare PATCH call are the
      environment: an [Env] of oracles, with the number of draws and the
      list of issued requests kept in the [World].
    - An [async] function is run to completion: its effects are sequenced
      in program order and every intermediate [World] is recorded in a
      trace, so that a property can be stated "at every point".
    - A mutation of an object that the store also holds
      ([record.content = newIp]) is a write to the store, at the index the
      object was read from.

    Left out: the zone and backup stores, the scan, domain-test and backup
    routes, and requests that arrive while a job is running (a run is
    taken alone, its writes in program order). *)

From Stdlib Require Import ZArith String List Bool Lia Floats Uint63 QArith Qround.
From stdpp Require Import base option list strings gmap fin_maps pretty.

Local Open Scope string_scope.
Local Open Scope list_scope.
Local Open Scope Z_scope.

(** ** JavaScript values that reach a JSON response *)

Inductive JsVal : Type :=
| JNull
| JBool (b : bool)
| JNum (n : Z)
| JStr (s : string)
| JDate (ms : Z).

(** A plain object: its own enumerable properties in creation order. *)
Definition JsObj : Type := list (string * JsVal).

(** [Boolean(s)] and [!s] on a string. *)
Definition truthy (s : string) : bool := negb (String.eqb s "").

(** [s || d] on strings. *)
Definition str_or (s d : string) : string := if truthy s then s else d.


(** [const { k, ...rest } = o]: the rest object. *)
Definition omit (k : string) (o : JsObj) : JsObj :=
  List.filter (fun p => negb (String.eqb (fst p) k)) o.

Definition has_key (k : string) (o : JsObj) : bool :=
  existsb (fun p => String.eqb (fst p) k) o.

Fixpoint get_key (k : string) (o : JsObj) : option JsVal :=
  match o with
  | [] => None
  | (k', v) :: o' => if String.eqb k' k then Some v else get_key k o'
  end.

(** [arr.slice(0, end)] for an integer [end]: a negative [end] counts from
    the back of the array. *)
Definition slice0 {A : Type} (l : list A) (e : Z) : list A :=
  if e <? 0 then firstn (Z.to_nat (Z.max (Z.of_nat (length l) + e) 0)) l
  else firstn (Z.to_nat e) l.

(** ** shared/schema.ts *)

Module ApiConfiguration.
Record t : Type := mk {
  id : string;
  email : string;
  apiKey : string;
  isConnected : bool;
  lastConnected : option Z
}.
End ApiConfiguration.

Module InsertApiConfiguration.
Record t : Type := mk { email : string; apiKey : string }.
End InsertApiConfiguration.

Module DnsRecord.
Record t : Type := mk {
  id : string;
  zoneId : string;
  zoneName : string;
  name : string;
  type : string;
  content : string;
  ttl : Z;
  proxied : bool;
  locked : bool
}.

(** [record.content = v] *)
Definition set_content (v : string) (r : t) : t :=
  mk (id r) (zoneId r) (zoneName r) (name r) (type r) v (ttl r)
     (proxied r) (locked r).
End DnsRecord.

Module MigrationJob.
Record t : Type := mk {
  id : string;
  oldIp : string;
  newIp : string;
  totalRecords : Z;
  completedRecords : Z;
  failedRecords : Z;
  status : string;
  createdAt : option Z;
  completedAt : option Z
}.
End MigrationJob.

Module InsertMigrationJob.
Record t : Type := mk { oldIp : string; newIp : string; totalRecords : Z }.
End InsertMigrationJob.

Module MigrationRecordStatus.
Record t : Type := mk {
  id : string;
  jobId : string;
  recordId : string;
  status : string;
  errorMessage : option string;
  updatedAt : option Z
}.
End MigrationRecordStatus.

Inductive ActivityType : Type := info | success | error | warning.

Module ActivityLogEntry.
Record t : Type := mk {
  id : string;
  timestamp : Z;
  type : ActivityType;
  message : string;
  details : option string
}.
End ActivityLogEntry.

(** An entry before [addActivityLogEntry] gives it an id. *)
Module NewActivity.
Record t : Type := mk {
  timestamp : Z;
  type : ActivityType;
  message : string;
  details : option string
}.
End NewActivity.

Module MigrationProgress.
Record t : Type := mk {
  jobId : string;
  totalRecords : Z;
  completedRecords : Z;
  failedRecords : Z;
  processingRecords : Z;
  status : string;
  (** [None] is a [NaN] or an infinity, which JSON prints as [null]. *)
  progressPercentage : option Z
}.
End MigrationProgress.

(** ** JavaScript [Map] with observable insertion order *)

Module JsMap.
Abbreviation t V := (list (string * V)) (only parsing).

(** [m.set(k, v)]: an existing key keeps its place, a new key goes last. *)
Fixpoint set {V : Type} (k : string) (v : V) (m : t V) : t V :=
  match m with
  | [] => [(k, v)]
  | (k', v') :: m' =>
      if String.eqb k' k then (k, v) :: m' else (k', v') :: set k v m'
  end.

Fixpoint get {V : Type} (k : string) (m : t V) : option V :=
  match m with
  | [] => None
  | (k', v') :: m' => if String.eqb k' k then Some v' else get k m'
  end.

(** [Array.from(m.values())] *)
Definition values {V : Type} (m : t V) : list V := map snd m.

Definition keys {V : Type} (m : t V) : list string := map fst m.
End JsMap.

(** [arr.find(p)] together with the index of the element found: the index
    is the identity of the object, which the caller goes on to mutate. *)
Fixpoint find_index {A : Type} (p : A -> bool) (l : list A) : option (nat * A) :=
  match l with
  | [] => None
  | x :: l' =>
      if p x then Some (O, x)
      else match find_index p l' with
           | Some (i, y) => Some (S i, y)
           | None => None
           end
  end.

(** ** The Cloudflare client and the rest of the environment *)

(** The body of the PATCH request of [updateDnsRecord]. *)
Module PatchData.
Record t : Type := mk {
  type : string;
  name : string;
  content : string;
  ttl : Z;
  proxied : bool
}.
End PatchData.

(** One call of [CloudflareAPI.updateDnsRecord], with the credentials the
    client was built with. *)
Module CfRequest.
Record t : Type := mk {
  authEmail : string;
  authKey : string;
  zoneId : string;
  recordId : string;
  data : PatchData.t
}.
End CfRequest.

(** The request resolves, or rejects with an [Error] of that message. *)
Inductive CfResult : Type :=
| CfOk
| CfError (message : string).

Record Env : Type := mkEnv {
  (** the n-th [randomUUID()] *)
  randomUUID : nat -> string;
  (** the n-th [new Date()], in milliseconds *)
  now : nat -> Z;
  (** the provider's answer to a request, given the requests before it *)
  cfUpdate : list CfRequest.t -> CfRequest.t -> CfResult
}.

(** ** server/storage.ts: the fields of [MemStorage] *)

Record MemStorage : Type := mkStorage {
  apiConfiguration : option ApiConfiguration.t;
  dnsRecords : JsMap.t DnsRecord.t;
  migrationJobs : gmap string MigrationJob.t;
  migrationRecordStatuses : gmap string MigrationRecordStatus.t;
  activityLog : list ActivityLogEntry.t
}.

(** [new MemStorage()] *)
Definition emptyStorage : MemStorage := mkStorage None [] ∅ ∅ [].

Record World : Type := mkWorld {
  storage : MemStorage;
  uuids : nat;
  ticks : nat;
  cfCalls : list CfRequest.t
}.

Definition initialWorld : World := mkWorld emptyStorage 0 0 [].

Definition with_storage (s : MemStorage) (w : World) : World :=
  mkWorld s (uuids w) (ticks w) (cfCalls w).

Definition with_config (c : option ApiConfiguration.t) (s : MemStorage) : MemStorage :=
  mkStorage c (dnsRecords s) (migrationJobs s) (migrationRecordStatuses s)
            (activityLog s).

Definition with_dns (d : JsMap.t DnsRecord.t) (s : MemStorage) : MemStorage :=
  mkStorage (apiConfiguration s) d (migrationJobs s)
            (migrationRecordStatuses s) (activityLog s).

Definition with_jobs (j : gmap string MigrationJob.t) (s : MemStorage) : MemStorage :=
  mkStorage (apiConfiguration s) (dnsRecords s) j (migrationRecordStatuses s)
            (activityLog s).

Definition with_statuses (r : gmap string MigrationRecordStatus.t) (s : MemStorage)
  : MemStorage :=
  mkStorage (apiConfiguration s) (dnsRecords s) (migrationJobs s) r
            (activityLog s).

Definition with_log (l : list ActivityLogEntry.t) (s : MemStorage) : MemStorage :=
  mkStorage (apiConfiguration s) (dnsRecords s) (migrationJobs s)
            (migrationRecordStatuses s) l.

(** ** Effects: state, exceptions and the trace of intermediate worlds *)

Inductive Outcome (A : Type) : Type :=
| Ok (a : A)
| Throw (message : string).
Arguments Ok {A} a.
Arguments Throw {A} message.

(** A computation returns its outcome, the world it leaves and the worlds
    it went through, oldest first, the last being the world it leaves. *)
Definition M (A : Type) : Type := World -> Outcome A * World * list World.

Definition ret {A : Type} (a : A) : M A := fun w => (Ok a, w, []).

Definition bind {A B : Type} (m : M A) (f : A -> M B) : M B :=
  fun w =>
    match m w with
    | (Ok a, w1, t1) =>
        match f a w1 with
        | (r, w2, t2) => (r, w2, t1 ++ t2)
        end
    | (Throw e, w1, t1) => (Throw e, w1, t1)
    end.

Definition throw {A : Type} (message : string) : M A :=
  fun w => (Throw message, w, []).

(** [try { m } catch (error) { h(error.message) }] *)
Definition try_catch {A : Type} (m : M A) (h : string -> M A) : M A :=
  fun w =>
    match m w with
    | (Ok a, w1, t1) => (Ok a, w1, t1)
    | (Throw e, w1, t1) =>
        match h e w1 with
        | (r, w2, t2) => (r, w2, t1 ++ t2)
        end
    end.

(** A read of the world. *)
Definition gets {A : Type} (f : World -> A) : M A := fun w => (Ok (f w), w, []).

(** One atomic write: the world it produces is a point of the trace. *)
Definition effect {A : Type} (f : World -> A * World) : M A :=
  fun w => match f w with (a, w') => (Ok a, w', [w']) end.

Notation "'await' x <- m ; k" := (bind m (fun x => k))
  (at level 10, x name, m at level 100, k at level 200).
Notation "'exec' m ; k" := (bind m (fun _ => k))
  (at level 10, m at level 100, k at level 200).

Definition outcome_of {A : Type} (r : Outcome A * World * list World) : Outcome A :=
  fst (fst r).
Definition world_of {A : Type} (r : Outcome A * World * list World) : World :=
  snd (fst r).
Definition trace_of {A : Type} (r : Outcome A * World * list World) : list World :=
  snd r.

(** ** binary64 arithmetic of the percentage *)



(** ** HTTP responses *)

Record Response : Type := mkResponse { code : Z; body : JsObj }.

(** [res.json(o)] and [res.status(c).json(o)] *)
Definition res_json (o : JsObj) : Response := mkResponse 200 o.
Definition res_status_json (c : Z) (o : JsObj) : Response := mkResponse c o.

Definition json_of_date (d : option Z) : JsVal :=
  match d with Some ms => JDate ms | None => JNull end.


(** The own properties of a stored configuration, in creation order:
    [{ id: "default", ...config, isConnected, lastConnected }]. *)
Definition json_of_config (c : ApiConfiguration.t) : JsObj :=
  [ ("id", JStr (ApiConfiguration.id c));
    ("email", JStr (ApiConfiguration.email c));
    ("apiKey", JStr (ApiConfiguration.apiKey c));
    ("isConnected", JBool (ApiConfiguration.isConnected c));
    ("lastConnected", json_of_date (ApiConfiguration.lastConnected c)) ].


(** The body of [POST /api/migration/start]; [None] is a property that is
    absent, and for [recordIds] one that is not an array. *)
Record StartBody : Type := mkStartBody {
  body_oldIp : option string;
  body_newIp : option string;
  body_recordIds : option (list string)
}.

(** [!v] on a property that may be absent. *)
Definition falsy (v : option string) : bool :=
  match v with Some s => negb (truthy s) | None => true end.

Section Program.
Variable E : Env.

(** *** Draws from the environment *)

Definition draw_uuid (w : World) : string * World :=
  (randomUUID E (uuids w), mkWorld (storage w) (S (uuids w)) (ticks w) (cfCalls w)).

Definition draw_date (w : World) : Z * World :=
  (now E (ticks w), mkWorld (storage w) (uuids w) (S (ticks w)) (cfCalls w)).

(** [new Date()] evaluated in a route. *)
Definition newDate : M Z := effect draw_date.

(** *** class MemStorage *)

Definition getApiConfiguration : M (option ApiConfiguration.t) :=
  gets (fun w => apiConfiguration (storage w)).

Definition saveApiConfiguration (config : InsertApiConfiguration.t)
  : M ApiConfiguration.t :=
  effect (fun w =>
    let apiConfig :=
      ApiConfiguration.mk "default" (InsertApiConfiguration.email config)
        (InsertApiConfiguration.apiKey config) false None in
    (apiConfig, with_storage (with_config (Some apiConfig) (storage w)) w)).

Definition updateConnectionStatus (isConnected : bool) : M unit :=
  effect (fun w =>
    match apiConfiguration (storage w) with
    | Some c =>
        let '(d, w1) := if isConnected then
                          let '(d, w1) := draw_date w in (Some d, w1)
                        else (None, w) in
        let c' := ApiConfiguration.mk (ApiConfiguration.id c)
                    (ApiConfiguration.email c) (ApiConfiguration.apiKey c)
                    isConnected d in
        (tt, with_storage (with_config (Some c') (storage w1)) w1)
    | None => (tt, w)
    end).

(** [this.dnsRecords.clear(); records.forEach(r => this.dnsRecords.set(r.id, r))] *)
Definition saveDnsRecords_map (records : list DnsRecord.t) : JsMap.t DnsRecord.t :=
  fold_left (fun m r => JsMap.set (DnsRecord.id r) r m) records [].

Definition saveDnsRecords (records : list DnsRecord.t) : M unit :=
  effect (fun w =>
    (tt, with_storage (with_dns (saveDnsRecords_map records) (storage w)) w)).

Definition getDnsRecords : M (list DnsRecord.t) :=
  gets (fun w => JsMap.values (dnsRecords (storage w))).

Definition createMigrationJob (job : InsertMigrationJob.t) : M MigrationJob.t :=
  effect (fun w =>
    let '(uuid, w1) := draw_uuid w in
    let '(d, w2) := draw_date w1 in
    let migrationJob :=
      MigrationJob.mk uuid (InsertMigrationJob.oldIp job)
        (InsertMigrationJob.newIp job) (InsertMigrationJob.totalRecords job)
        0 0 "pending" (Some d) None in
    (migrationJob,
     with_storage
       (with_jobs (<[uuid := migrationJob]> (migrationJobs (storage w2)))
                  (storage w2)) w2)).


Definition updateMigrationJobProgress (jobId : string) (completed failed : Z)
  : M unit :=
  effect (fun w =>
    match migrationJobs (storage w) !! jobId with
    | Some job =>
        let job' :=
          MigrationJob.mk (MigrationJob.id job) (MigrationJob.oldIp job)
            (MigrationJob.newIp job) (MigrationJob.totalRecords job)
            completed failed (MigrationJob.status job)
            (MigrationJob.createdAt job) (MigrationJob.completedAt job) in
        (tt, with_storage
               (with_jobs (<[jobId := job']> (migrationJobs (storage w)))
                          (storage w)) w)
    | None => (tt, w)
    end).

Definition updateMigrationJobStatus (jobId : string) (status : string) : M unit :=
  effect (fun w =>
    match migrationJobs (storage w) !! jobId with
    | Some job =>
        let '(completedAt, w1) :=
          if String.eqb status "completed" || String.eqb status "failed"
          then let '(d, w1) := draw_date w in (Some d, w1)
          else (MigrationJob.completedAt job, w) in
        let job' :=
          MigrationJob.mk (MigrationJob.id job) (MigrationJob.oldIp job)
            (MigrationJob.newIp job) (MigrationJob.totalRecords job)
            (MigrationJob.completedRecords job) (MigrationJob.failedRecords job)
            status (MigrationJob.createdAt job) completedAt in
        (tt, with_storage
               (with_jobs (<[jobId := job']> (migrationJobs (storage w1)))
                          (storage w1)) w1)
    | None => (tt, w)
    end).

Definition saveMigrationRecordStatus (statuses : list MigrationRecordStatus.t)
  : M unit :=
  effect (fun w =>
    (tt, with_storage
           (with_statuses
              (fold_left (fun m s => <[MigrationRecordStatus.id s := s]> m)
                         statuses (migrationRecordStatuses (storage w)))
              (storage w)) w)).

(** [errorMessage || null] on the optional third argument. *)
Definition or_null (errorMessage : option string) : option string :=
  match errorMessage with
  | Some s => if truthy s then Some s else None
  | None => None
  end.

Definition updateMigrationRecordStatus (recordId : string) (status : string)
    (errorMessage : option string) : M unit :=
  effect (fun w =>
    match migrationRecordStatuses (storage w) !! recordId with
    | Some recordStatus =>
        let '(d, w1) := draw_date w in
        let recordStatus' :=
          MigrationRecordStatus.mk (MigrationRecordStatus.id recordStatus)
            (MigrationRecordStatus.jobId recordStatus)
            (MigrationRecordStatus.recordId recordStatus)
            status (or_null errorMessage) (Some d) in
        (tt, with_storage
               (with_statuses
                  (<[recordId := recordStatus']>
                     (migrationRecordStatuses (storage w1)))
                  (storage w1)) w1)
    | None => (tt, w)
    end).

(** [unshift] the entry, then keep the first 100. *)
Definition addActivityLogEntry_log (logEntry : ActivityLogEntry.t)
    (log : list ActivityLogEntry.t) : list ActivityLogEntry.t :=
  let log' := logEntry :: log in
  if (100 <? Z.of_nat (length log')) then slice0 log' 100 else log'.

Definition addActivityLogEntry (entry : NewActivity.t) : M ActivityLogEntry.t :=
  effect (fun w =>
    let '(uuid, w1) := draw_uuid w in
    let logEntry :=
      ActivityLogEntry.mk uuid (NewActivity.timestamp entry)
        (NewActivity.type entry) (NewActivity.message entry)
        (NewActivity.details entry) in
    (logEntry,
     with_storage
       (with_log (addActivityLogEntry_log logEntry (activityLog (storage w1)))
                 (storage w1)) w1)).

(** [limit] defaults to 50 when the argument is omitted. *)
Definition getActivityLog (limit : option Z) : M (list ActivityLogEntry.t) :=
  gets (fun w => slice0 (activityLog (storage w)) (default 50 limit)).

Definition clearActivityLog : M unit :=
  effect (fun w => (tt, with_storage (with_log [] (storage w)) w)).

(** *** server/routes.ts *)

(** [cfApi.updateDnsRecord(zoneId, recordId, data)] of a client built
    with [config.email] and [config.apiKey]: the request is issued and
    the provider's answer decides between returning and throwing. *)
Definition updateDnsRecord (config : ApiConfiguration.t) (zoneId recordId : string)
    (data : PatchData.t) : M unit :=
  fun w =>
    let req := CfRequest.mk (ApiConfiguration.email config)
                 (ApiConfiguration.apiKey config) zoneId recordId data in
    let w' := mkWorld (storage w) (uuids w) (ticks w) (cfCalls w ++ [req]) in
    match cfUpdate E (cfCalls w) req with
    | CfOk => (Ok tt, w', [w'])
    | CfError message => (Throw message, w', [w'])
    end.

(** [record.content = newIp], on the object found at index [i] of the
    array returned by [getDnsRecords]: that array is made of the very
    objects held by [this.dnsRecords], in the same order, so the write
    shows in the map entry of the same index. *)
Definition assign_content (i : nat) (newIp : string) : M unit :=
  effect (fun w =>
    (tt, with_storage
           (with_dns
              (alter (fun kv => (fst kv, DnsRecord.set_content newIp (snd kv)))
                     i (dnsRecords (storage w)))
              (storage w)) w)).

(** GET /api/config *)
Definition get_config : M Response :=
  await config <- getApiConfiguration;
  match config with
  | None => ret (res_status_json 404 [("message", JStr "Configuration not found")])
  | Some config =>
      let apiKey := ApiConfiguration.apiKey config in
      let safeConfig := omit "apiKey" (json_of_config config) in
      ret (res_json (safeConfig ++ [("hasApiKey", JBool (truthy apiKey))]))
  end.

(** The key [`${jobId}-${recordId}`] of a record status. *)
Definition recordStatusId (jobId recordId : string) : string :=
  jobId +:+ "-" +:+ recordId.

(** The [try { ... } catch (error) { ... }] inside the loop of
    [processMigration]; [counters] are the local variables [completed]
    and [failed], returned as the block leaves them. *)
Definition attemptRecord (config : ApiConfiguration.t)
    (jobId oldIp newIp recordId : string) (counters : Z * Z) : M (Z * Z) :=
  let '(completed, failed) := counters in
  try_catch
    (exec updateMigrationRecordStatus (recordStatusId jobId recordId) "processing" None;
     await allRecords <- getDnsRecords;
     match find_index (fun r => String.eqb (DnsRecord.id r) recordId) allRecords with
     | None => throw "Record not found"
     | Some (i, record) =>
         exec updateDnsRecord config (DnsRecord.zoneId record) (DnsRecord.id record)
                (PatchData.mk (DnsRecord.type record) (DnsRecord.name record)
                   newIp (DnsRecord.ttl record) (DnsRecord.proxied record));
         exec assign_content i newIp;
         exec saveDnsRecords (<[i := DnsRecord.set_content newIp record]> allRecords);
         exec updateMigrationRecordStatus (recordStatusId jobId recordId) "completed" None;
         await timestamp <- newDate;
         exec addActivityLogEntry
                (NewActivity.mk timestamp success
                   ("Updated DNS record for " +:+ DnsRecord.name record)
                   (Some (oldIp +:+ " → " +:+ newIp)));
         ret (completed + 1, failed)
     end)
    (fun message =>
       exec updateMigrationRecordStatus (recordStatusId jobId recordId) "failed"
              (Some (str_or message "Unknown error"));
       await timestamp <- newDate;
       exec addActivityLogEntry
              (NewActivity.mk timestamp error
                 ("Failed to update DNS record: " +:+ str_or message "Unknown error")
                 None);
       ret (completed, failed + 1)).

(** One turn of the loop: the block above, then the progress update. *)
Definition processRecord (config : ApiConfiguration.t)
    (jobId oldIp newIp recordId : string) (counters : Z * Z) : M (Z * Z) :=
  await counters' <- attemptRecord config jobId oldIp newIp recordId counters;
  exec updateMigrationJobProgress jobId (fst counters') (snd counters');
  ret counters'.

(** [for (const recordId of recordIds) { ... }] *)
Fixpoint processRecords (config : ApiConfiguration.t) (jobId oldIp newIp : string)
    (recordIds : list string) (counters : Z * Z) : M (Z * Z) :=
  match recordIds with
  | [] => ret counters
  | recordId :: rest =>
      await counters' <- processRecord config jobId oldIp newIp recordId counters;
      processRecords config jobId oldIp newIp rest counters'
  end.

Definition processMigration (jobId : string) (recordIds : list string)
    (oldIp newIp : string) : M unit :=
  try_catch
    (await config <- getApiConfiguration;
     match config with
     | None => throw "No API configuration found"
     | Some config =>
         exec updateMigrationJobStatus jobId "running";
         await counters <- processRecords config jobId oldIp newIp recordIds (0, 0);
         exec updateMigrationJobStatus jobId "completed";
         await timestamp <- newDate;
         exec addActivityLogEntry
                (NewActivity.mk timestamp success
                   ("Migration completed: " +:+ pretty (fst counters) +:+ " success, "
                      +:+ pretty (snd counters) +:+ " failed")
                   None);
         ret tt
     end)
    (fun message =>
       exec updateMigrationJobStatus jobId "failed";
       await timestamp <- newDate;
       exec addActivityLogEntry
              (NewActivity.mk timestamp error
                 ("Migration failed: " +:+ str_or message "Unknown error") None);
       ret tt).

(** [recordIds.map(recordId => ({ ..., updatedAt: new Date() }))] *)
Fixpoint initialStatuses (jobId : string) (recordIds : list string)
  : M (list MigrationRecordStatus.t) :=
  match recordIds with
  | [] => ret []
  | recordId :: rest =>
      await updatedAt <- newDate;
      await statuses <- initialStatuses jobId rest;
      ret (MigrationRecordStatus.mk (recordStatusId jobId recordId) jobId recordId
             "pending" None (Some updatedAt) :: statuses)
  end.

(** POST /api/migration/start, from the creation of the job on: the
    record statuses, the activity entry and the start of
    [processMigration], which is not awaited: its writes follow those of
    the handler and the response does not depend on them. *)
Definition afterJobCreated (job : MigrationJob.t) (recordIds : list string)
    (oldIp newIp : string) : M Response :=
  await recordStatuses <- initialStatuses (MigrationJob.id job) recordIds;
  exec saveMigrationRecordStatus recordStatuses;
  await timestamp <- newDate;
  exec addActivityLogEntry
         (NewActivity.mk timestamp info
            ("Starting migration for " +:+ pretty (Z.of_nat (length recordIds))
               +:+ " DNS records")
            (Some (oldIp +:+ " → " +:+ newIp)));
  exec processMigration (MigrationJob.id job) recordIds oldIp newIp;
  ret (res_json [("jobId", JStr (MigrationJob.id job))]).

(** POST /api/migration/start *)
Definition post_migration_start (body : StartBody) : M Response :=
  try_catch
    (match body_oldIp body, body_newIp body, body_recordIds body with
     | Some oldIp, Some newIp, Some recordIds =>
         if negb (truthy oldIp) || negb (truthy newIp)
            || (Z.of_nat (length recordIds) =? 0)
         then ret (res_status_json 400 [("message", JStr "Missing required parameters")])
         else
           await job <- createMigrationJob
                          (InsertMigrationJob.mk oldIp newIp
                             (Z.of_nat (length recordIds)));
           afterJobCreated job recordIds oldIp newIp
     | _, _, _ =>
         ret (res_status_json 400 [("message", JStr "Missing required parameters")])
     end)
    (fun message =>
       ret (res_status_json 500
              [("message", JStr "Failed to start migration");
               ("error", JStr (str_or message "Unknown error"))])).



End Program.

(** ** Vocabulary of the properties *)

(** Consecutive worlds of a trace, from its starting world, are related. *)
Fixpoint chain (R : World -> World -> Prop) (w : World) (t : list World) : Prop :=
  match t with
  | [] => True
  | w' :: t' => R w w' /\ chain R w' t'
  end.

(** Every run of [m] steps along [R] and ends in the last world of its
    trace. *)
Definition respects {A : Type} (R : World -> World -> Prop) (m : M A) : Prop :=
  forall w, chain R w (trace_of (m w))
            /\ world_of (m w) = List.last (trace_of (m w)) w.

(** From a world satisfying [P], the run of [m] steps along [R], ends in
    the last world of its trace, and its outcome and final world satisfy
    [Q]. *)
Definition hoare {A : Type} (R : World -> World -> Prop) (P : World -> Prop)
    (m : M A) (Q : Outcome A -> World -> Prop) : Prop :=
  forall w, P w ->
    chain R w (trace_of (m w))
    /\ world_of (m w) = List.last (trace_of (m w)) w
    /\ Q (outcome_of (m w)) (world_of (m w)).

Definition jobs (w : World) : gmap string MigrationJob.t :=
  migrationJobs (storage w).

Definition statuses (w : World) : gmap string MigrationRecordStatus.t :=
  migrationRecordStatuses (storage w).

(** The counters of a job: completed, failed, total. *)
Definition counters (job : MigrationJob.t) : Z * Z * Z :=
  (MigrationJob.completedRecords job, MigrationJob.failedRecords job,
   MigrationJob.totalRecords job).

Definition counters_of (w : World) (jobId : string) : option (Z * Z * Z) :=
  counters <$> jobs w !! jobId.




(** The writes that leave every counter as it is. *)
Definition same_counters (w w' : World) : Prop :=
  forall jobId, counters_of w' jobId = counters_of w jobId.



(** [errorMessage] is non-null exactly when [status] is ["failed"]. *)
Definition status_ok (rs : MigrationRecordStatus.t) : Prop :=
  MigrationRecordStatus.errorMessage rs <> None
  <-> MigrationRecordStatus.status rs = "failed".

Definition statuses_ok (w : World) : Prop :=
  forall k rs, statuses w !! k = Some rs -> status_ok rs.

(** One write keeps the invariant on the error messages. *)
Definition keeps_statuses_ok (a b : World) : Prop := statuses_ok a -> statuses_ok b.

(** The arguments with which the engine calls
    [updateMigrationRecordStatus]. *)
Inductive engine_transition : string -> option string -> Prop :=
| to_processing : engine_transition "processing" None
| to_completed : engine_transition "completed" None
| to_failed message : engine_transition "failed" (Some (str_or message "Unknown error")).

(** [allRecords.find(r => r.id === recordId)] on the cached listing, with
    the index of the record found. *)
Definition find_record (recordId : string) (w : World) : option (nat * DnsRecord.t) :=
  find_index (fun r => String.eqb (DnsRecord.id r) recordId)
    (JsMap.values (dnsRecords (storage w))).




(** What [saveDnsRecords] establishes: every entry is filed under the id
    of its record, and no id is filed twice. *)
Definition dns_wf (m : JsMap.t DnsRecord.t) : Prop :=
  NoDup (JsMap.keys m) /\ Forall (fun kv => fst kv = DnsRecord.id (snd kv)) m.

(** The record of that id in the cached listing. *)
Definition snapshot (w : World) (recordId : string) : option DnsRecord.t :=
  JsMap.get recordId (dnsRecords (storage w)).

(** The request the engine builds for a record. *)
Definition patch_request (config : ApiConfiguration.t) (record : DnsRecord.t)
    (newIp : string) : CfRequest.t :=
  CfRequest.mk (ApiConfiguration.email config) (ApiConfiguration.apiKey config)
    (DnsRecord.zoneId record) (DnsRecord.id record)
    (PatchData.mk (DnsRecord.type record) (DnsRecord.name record) newIp
       (DnsRecord.ttl record) (DnsRecord.proxied record)).









(** Writing a list of entries, oldest first. *)
Fixpoint addActivityLogEntries (E : Env) (entries : list NewActivity.t)
  : M (list ActivityLogEntry.t) :=
  match entries with
  | [] => ret []
  | entry :: rest =>
      await logEntry <- addActivityLogEntry E entry;
      await logEntries <- addActivityLogEntries E rest;
      ret (logEntry :: logEntries)
  end.

(** ** A scenario to run the properties on

    Three records in the cache; the provider rejects the update of the
    second; the request also names a record the cache does not hold, and
    the third record does not hold the old address. *)

Definition exampleRecord (id name content : string) : DnsRecord.t :=
  DnsRecord.mk id "zone-1" "example.com" name "A" content 300 false false.

Definition exampleConfig : ApiConfiguration.t :=
  ApiConfiguration.mk "default" "ops@example.com" "secret-key" false None.

Definition exampleEnv : Env :=
  mkEnv (fun n => "uuid-" +:+ pretty n)
        (fun n => 1700000000000 + Z.of_nat n)
        (fun _ req =>
           if String.eqb (CfRequest.recordId req) "rec-2"
           then CfError "Cloudflare API error: 403 Forbidden"
           else CfOk).

Definition exampleWorld : World :=
  mkWorld
    (mkStorage (Some exampleConfig)
       (saveDnsRecords_map
          [ exampleRecord "rec-1" "www.example.com" "203.0.113.10";
            exampleRecord "rec-2" "api.example.com" "203.0.113.10";
            exampleRecord "rec-3" "mail.example.com" "192.0.2.99" ])
       ∅ ∅ [])
    0 0 [].

Definition exampleBody : StartBody :=
  mkStartBody (Some "203.0.113.10") (Some "198.51.100.7")
    (Some ["rec-1"; "rec-2"; "rec-3"; "rec-4"]).

(** A job in the middle of its run: two of its four records are done, the
    third and the fourth are still pending; the cache is that of
    [exampleWorld], which holds no ["rec-4"]. *)
Definition runningJob : MigrationJob.t :=
  MigrationJob.mk "job-1" "203.0.113.10" "198.51.100.7" 4 1 1 "running"
    (Some 1700000000000) None.

Definition pendingStatus (jobId recordId : string) : MigrationRecordStatus.t :=
  MigrationRecordStatus.mk (recordStatusId jobId recordId) jobId recordId
    "pending" None (Some 1700000000001).

Definition runningWorld : World :=
  mkWorld
    (mkStorage (Some exampleConfig) (dnsRecords (storage exampleWorld))
       {[ "job-1" := runningJob ]}
       (<[recordStatusId "job-1" "rec-3" := pendingStatus "job-1" "rec-3"]>
          {[ recordStatusId "job-1" "rec-4" := pendingStatus "job-1" "rec-4" ]})
       [])
    1 9 [].

(** One hundred and one activity entries, numbered in the order written. *)
Definition exampleEntries : list NewActivity.t :=
  map (fun n => NewActivity.mk (Z.of_nat n) info ("entry " +:+ pretty n) None)
      (seq 1 101).




(** * Reasoning about runs *)

(** ** Running a computation *)

Section Running.
Context {A B : Type}.
Implicit Types (m : M A) (f : A -> M B) (h : string -> M A) (w : World).

Lemma run_eta (r : Outcome A * World * list World) :
  r = (outcome_of r, world_of r, trace_of r).
Proof. by destruct r as [[o w] t]. Qed.

Lemma bind_ok m f w a :
  outcome_of (m w) = Ok a ->
  bind m f w =
    (outcome_of (f a (world_of (m w))), world_of (f a (world_of (m w))),
     trace_of (m w) ++ trace_of (f a (world_of (m w)))).
Proof.
  unfold bind, outcome_of, world_of, trace_of.
  destruct (m w) as [[o w1] t1]; cbn; intros ->.
  by destruct (f a w1) as [[o2 w2] t2].
Qed.

Lemma bind_throw m f w e :
  outcome_of (m w) = Throw e ->
  bind m f w = (Throw e, world_of (m w), trace_of (m w)).
Proof.
  unfold bind, outcome_of, world_of, trace_of.
  by destruct (m w) as [[o w1] t1]; cbn; intros ->.
Qed.

Lemma try_ok m h w a :
  outcome_of (m w) = Ok a ->
  try_catch m h w = (Ok a, world_of (m w), trace_of (m w)).
Proof.
  unfold try_catch, outcome_of, world_of, trace_of.
  by destruct (m w) as [[o w1] t1]; cbn; intros ->.
Qed.

Lemma try_throw m h w e :
  outcome_of (m w) = Throw e ->
  try_catch m h w =
    (outcome_of (h e (world_of (m w))), world_of (h e (world_of (m w))),
     trace_of (m w) ++ trace_of (h e (world_of (m w)))).
Proof.
  unfold try_catch, outcome_of, world_of, trace_of.
  destruct (m w) as [[o w1] t1]; cbn; intros ->.
  by destruct (h e w1) as [[o2 w2] t2].
Qed.
End Running.

Lemma run_effect {A : Type} (g : World -> A * World) (w : World) :
  effect g w = (Ok (fst (g w)), snd (g w), [snd (g w)]).
Proof. unfold effect. by destruct (g w). Qed.

(** ** Chains *)

Lemma last_cons_world (w w1 : World) (t : list World) :
  List.last (w1 :: t) w = List.last t w1.
Proof.
  revert w w1; induction t as [|w2 t IH]; intros w w1; [reflexivity|].
  change (List.last (w1 :: w2 :: t) w) with (List.last (w2 :: t) w).
  rewrite !IH. reflexivity.
Qed.

Lemma last_app_world (w : World) (t1 t2 : list World) :
  List.last (t1 ++ t2) w = List.last t2 (List.last t1 w).
Proof.
  revert w; induction t1 as [|w1 t1 IH]; intros w; [reflexivity|].
  change ((w1 :: t1) ++ t2) with (w1 :: (t1 ++ t2)).
  by rewrite !last_cons_world, IH.
Qed.

Section Chains.
Variable R : World -> World -> Prop.

Lemma chain_app w t1 t2 :
  chain R w t1 -> chain R (List.last t1 w) t2 -> chain R w (t1 ++ t2).
Proof.
  revert w; induction t1 as [|w1 t1 IH]; intros w; cbn [chain app].
  - intros _ H; exact H.
  - intros [H1 H2] H3. split; [exact H1|]. apply IH; [exact H2|].
    by rewrite <- (last_cons_world w).
Qed.


Hypothesis R_refl : forall w, R w w.
Hypothesis R_trans : forall a b c, R a b -> R b c -> R a c.



Lemma chain_last w t : chain R w t -> R w (List.last t w).
Proof.
  revert w; induction t as [|w1 t IH]; intros w; [intros; apply R_refl|].
  intros [H1 H2]. eapply R_trans; [exact H1|].
  rewrite last_cons_world. by apply IH.
Qed.
End Chains.

Lemma chain_Forall (P : World -> Prop) w t :
  chain (fun a b => P a -> P b) w t -> P w -> Forall P t.
Proof.
  revert w; induction t as [|w1 t IH]; intros w; cbn; [by constructor|].
  intros [H1 H2] Hw. constructor; [by apply H1|]. eapply IH; [exact H2|by apply H1].
Qed.

(** ** [respects] is compositional *)

Section Respects.
Variable R : World -> World -> Prop.

Lemma respects_ret {A : Type} (a : A) : respects R (ret a).
Proof. by intros w. Qed.

Lemma respects_throw {A : Type} (e : string) : respects R (@throw A e).
Proof. by intros w. Qed.

Lemma respects_gets {A : Type} (f : World -> A) : respects R (gets f).
Proof. by intros w. Qed.

Lemma respects_effect {A : Type} (g : World -> A * World) :
  (forall w, R w (snd (g w))) -> respects R (effect g).
Proof. intros H w. rewrite run_effect. cbn. by split; [split|]. Qed.

Lemma respects_bind {A B : Type} (m : M A) (f : A -> M B) :
  respects R m -> (forall a, respects R (f a)) -> respects R (bind m f).
Proof.
  intros Hm Hf w. destruct (Hm w) as [Hc Hl].
  destruct (outcome_of (m w)) as [a|e] eqn:Ho.
  - rewrite (bind_ok _ _ _ _ Ho). cbn [trace_of world_of fst snd].
    destruct (Hf a (world_of (m w))) as [Hc2 Hl2]. split.
    + apply chain_app; [done|]. by rewrite <- Hl.
    + by rewrite last_app_world, <- Hl.
  - rewrite (bind_throw _ _ _ _ Ho). by cbn.
Qed.

Lemma respects_try {A : Type} (m : M A) (h : string -> M A) :
  respects R m -> (forall e, respects R (h e)) -> respects R (try_catch m h).
Proof.
  intros Hm Hh w. destruct (Hm w) as [Hc Hl].
  destruct (outcome_of (m w)) as [a|e] eqn:Ho.
  - rewrite (try_ok _ _ _ _ Ho). by cbn.
  - rewrite (try_throw _ _ _ _ Ho). cbn [trace_of world_of fst snd].
    destruct (Hh e (world_of (m w))) as [Hc2 Hl2]. split.
    + apply chain_app; [done|]. by rewrite <- Hl.
    + by rewrite last_app_world, <- Hl.
Qed.
End Respects.

(** ** The writes, one by one *)

Section Writes.
Variable E : Env.
Implicit Types (w : World).

Lemma run_newDate w :
  newDate E w = (Ok (now E (ticks w)), world_of (newDate E w), [world_of (newDate E w)]).
Proof. reflexivity. Qed.

Lemma run_getDnsRecords w :
  getDnsRecords w = (Ok (JsMap.values (dnsRecords (storage w))), w, []).
Proof. reflexivity. Qed.

Lemma run_getApiConfiguration w :
  getApiConfiguration w = (Ok (apiConfiguration (storage w)), w, []).
Proof. reflexivity. Qed.


Lemma run_updateMigrationRecordStatus k st em w :
  updateMigrationRecordStatus E k st em w =
    (Ok tt, world_of (updateMigrationRecordStatus E k st em w),
     [world_of (updateMigrationRecordStatus E k st em w)]).
Proof.
  unfold updateMigrationRecordStatus, effect, world_of.
  by destruct (migrationRecordStatuses (storage w) !! k).
Qed.

Lemma run_updateMigrationJobProgress jobId c f w :
  updateMigrationJobProgress jobId c f w =
    (Ok tt, world_of (updateMigrationJobProgress jobId c f w),
     [world_of (updateMigrationJobProgress jobId c f w)]).
Proof.
  unfold updateMigrationJobProgress, effect, world_of.
  by destruct (migrationJobs (storage w) !! jobId).
Qed.

Lemma run_updateMigrationJobStatus jobId st w :
  updateMigrationJobStatus E jobId st w =
    (Ok tt, world_of (updateMigrationJobStatus E jobId st w),
     [world_of (updateMigrationJobStatus E jobId st w)]).
Proof.
  unfold updateMigrationJobStatus, effect, world_of.
  destruct (migrationJobs (storage w) !! jobId); [|done].
  by destruct (String.eqb st "completed" || String.eqb st "failed").
Qed.

Lemma run_assign_content i newIp w :
  assign_content i newIp w =
    (Ok tt, world_of (assign_content i newIp w), [world_of (assign_content i newIp w)]).
Proof. reflexivity. Qed.

Lemma run_saveDnsRecords records w :
  saveDnsRecords records w =
    (Ok tt, world_of (saveDnsRecords records w), [world_of (saveDnsRecords records w)]).
Proof. reflexivity. Qed.

Lemma run_saveMigrationRecordStatus sts w :
  saveMigrationRecordStatus sts w =
    (Ok tt, world_of (saveMigrationRecordStatus sts w),
     [world_of (saveMigrationRecordStatus sts w)]).
Proof. reflexivity. Qed.

Lemma run_addActivityLogEntry entry w :
  addActivityLogEntry E entry w =
    (Ok (ActivityLogEntry.mk (randomUUID E (uuids w)) (NewActivity.timestamp entry)
           (NewActivity.type entry) (NewActivity.message entry)
           (NewActivity.details entry)),
     world_of (addActivityLogEntry E entry w),
     [world_of (addActivityLogEntry E entry w)]).
Proof. reflexivity. Qed.

Lemma run_createMigrationJob job w :
  createMigrationJob E job w =
    (Ok (MigrationJob.mk (randomUUID E (uuids w)) (InsertMigrationJob.oldIp job)
           (InsertMigrationJob.newIp job) (InsertMigrationJob.totalRecords job)
           0 0 "pending" (Some (now E (ticks w))) None),
     world_of (createMigrationJob E job w),
     [world_of (createMigrationJob E job w)]).
Proof. reflexivity. Qed.

Lemma run_updateDnsRecord config zoneId recordId data w :
  updateDnsRecord E config zoneId recordId data w =
    (match cfUpdate E (cfCalls w)
             (CfRequest.mk (ApiConfiguration.email config)
                (ApiConfiguration.apiKey config) zoneId recordId data) with
     | CfOk => Ok tt
     | CfError message => Throw message
     end,
     world_of (updateDnsRecord E config zoneId recordId data w),
     [world_of (updateDnsRecord E config zoneId recordId data w)]).
Proof. unfold updateDnsRecord, world_of. by destruct (cfUpdate E _ _). Qed.
End Writes.

(** ** What each write leaves alone, and what it changes *)

Ltac frame :=
  intros;
  unfold jobs, statuses, world_of, newDate, updateMigrationRecordStatus,
    updateMigrationJobProgress, updateMigrationJobStatus, updateDnsRecord,
    assign_content, saveDnsRecords, saveMigrationRecordStatus,
    addActivityLogEntry, createMigrationJob, effect, draw_date, draw_uuid;
  cbn; repeat case_match; simplify_eq; cbn; reflexivity.

Section Frames.
Variable E : Env.
Implicit Types (w : World).

(** *** the jobs *)
Lemma jobs_newDate w : jobs (world_of (newDate E w)) = jobs w.
Proof. frame. Qed.
Lemma jobs_updateMigrationRecordStatus k st em w :
  jobs (world_of (updateMigrationRecordStatus E k st em w)) = jobs w.
Proof. frame. Qed.
Lemma jobs_updateDnsRecord config z r d w :
  jobs (world_of (updateDnsRecord E config z r d w)) = jobs w.
Proof. frame. Qed.
Lemma jobs_assign_content i ip w : jobs (world_of (assign_content i ip w)) = jobs w.
Proof. frame. Qed.
Lemma jobs_saveDnsRecords rs w : jobs (world_of (saveDnsRecords rs w)) = jobs w.
Proof. frame. Qed.
Lemma jobs_saveMigrationRecordStatus sts w :
  jobs (world_of (saveMigrationRecordStatus sts w)) = jobs w.
Proof. frame. Qed.
Lemma jobs_addActivityLogEntry entry w :
  jobs (world_of (addActivityLogEntry E entry w)) = jobs w.
Proof. frame. Qed.

Lemma jobs_updateMigrationJobProgress jobId c f w :
  jobs (world_of (updateMigrationJobProgress jobId c f w)) =
    match jobs w !! jobId with
    | Some job =>
        <[jobId := MigrationJob.mk (MigrationJob.id job) (MigrationJob.oldIp job)
                     (MigrationJob.newIp job) (MigrationJob.totalRecords job) c f
                     (MigrationJob.status job) (MigrationJob.createdAt job)
                     (MigrationJob.completedAt job)]> (jobs w)
    | None => jobs w
    end.
Proof. frame. Qed.



(** *** the record statuses *)
Lemma statuses_newDate w : statuses (world_of (newDate E w)) = statuses w.
Proof. frame. Qed.
Lemma statuses_updateDnsRecord config z r d w :
  statuses (world_of (updateDnsRecord E config z r d w)) = statuses w.
Proof. frame. Qed.
Lemma statuses_assign_content i ip w :
  statuses (world_of (assign_content i ip w)) = statuses w.
Proof. frame. Qed.
Lemma statuses_saveDnsRecords rs w :
  statuses (world_of (saveDnsRecords rs w)) = statuses w.
Proof. frame. Qed.
Lemma statuses_addActivityLogEntry entry w :
  statuses (world_of (addActivityLogEntry E entry w)) = statuses w.
Proof. frame. Qed.
Lemma statuses_updateMigrationJobProgress jobId c f w :
  statuses (world_of (updateMigrationJobProgress jobId c f w)) = statuses w.
Proof. frame. Qed.
Lemma statuses_updateMigrationJobStatus jobId st w :
  statuses (world_of (updateMigrationJobStatus E jobId st w)) = statuses w.
Proof. frame. Qed.
Lemma statuses_createMigrationJob job w :
  statuses (world_of (createMigrationJob E job w)) = statuses w.
Proof. frame. Qed.

Lemma statuses_updateMigrationRecordStatus k st em w :
  statuses (world_of (updateMigrationRecordStatus E k st em w)) =
    match statuses w !! k with
    | Some rs =>
        <[k := MigrationRecordStatus.mk (MigrationRecordStatus.id rs)
                 (MigrationRecordStatus.jobId rs) (MigrationRecordStatus.recordId rs)
                 st (or_null em) (Some (now E (ticks w)))]> (statuses w)
    | None => statuses w
    end.
Proof. frame. Qed.

Lemma statuses_saveMigrationRecordStatus sts w :
  statuses (world_of (saveMigrationRecordStatus sts w)) =
    fold_left (fun m s => <[MigrationRecordStatus.id s := s]> m) sts (statuses w).
Proof. frame. Qed.

(** *** the cached listing *)
Lemma dns_newDate w :
  dnsRecords (storage (world_of (newDate E w))) = dnsRecords (storage w).
Proof. frame. Qed.
Lemma dns_updateMigrationRecordStatus k st em w :
  dnsRecords (storage (world_of (updateMigrationRecordStatus E k st em w))) =
    dnsRecords (storage w).
Proof. frame. Qed.
Lemma dns_updateDnsRecord config z r d w :
  dnsRecords (storage (world_of (updateDnsRecord E config z r d w))) =
    dnsRecords (storage w).
Proof. frame. Qed.
Lemma dns_addActivityLogEntry entry w :
  dnsRecords (storage (world_of (addActivityLogEntry E entry w))) =
    dnsRecords (storage w).
Proof. frame. Qed.
Lemma dns_updateMigrationJobProgress jobId c f w :
  dnsRecords (storage (world_of (updateMigrationJobProgress jobId c f w))) =
    dnsRecords (storage w).
Proof. frame. Qed.
Lemma dns_assign_content i ip w :
  dnsRecords (storage (world_of (assign_content i ip w))) =
    alter (fun kv => (fst kv, DnsRecord.set_content ip (snd kv))) i
          (dnsRecords (storage w)).
Proof. frame. Qed.
Lemma dns_saveDnsRecords rs w :
  dnsRecords (storage (world_of (saveDnsRecords rs w))) = saveDnsRecords_map rs.
Proof. frame. Qed.

(** *** the requests sent to the provider *)
Lemma cfCalls_newDate w : cfCalls (world_of (newDate E w)) = cfCalls w.
Proof. frame. Qed.
Lemma cfCalls_updateMigrationRecordStatus k st em w :
  cfCalls (world_of (updateMigrationRecordStatus E k st em w)) = cfCalls w.
Proof. frame. Qed.
Lemma cfCalls_assign_content i ip w :
  cfCalls (world_of (assign_content i ip w)) = cfCalls w.
Proof. frame. Qed.
Lemma cfCalls_saveDnsRecords rs w :
  cfCalls (world_of (saveDnsRecords rs w)) = cfCalls w.
Proof. frame. Qed.
Lemma cfCalls_saveMigrationRecordStatus sts w :
  cfCalls (world_of (saveMigrationRecordStatus sts w)) = cfCalls w.
Proof. frame. Qed.
Lemma cfCalls_addActivityLogEntry entry w :
  cfCalls (world_of (addActivityLogEntry E entry w)) = cfCalls w.
Proof. frame. Qed.
Lemma cfCalls_updateMigrationJobProgress jobId c f w :
  cfCalls (world_of (updateMigrationJobProgress jobId c f w)) = cfCalls w.
Proof. frame. Qed.
Lemma cfCalls_updateMigrationJobStatus jobId st w :
  cfCalls (world_of (updateMigrationJobStatus E jobId st w)) = cfCalls w.
Proof. frame. Qed.
Lemma cfCalls_createMigrationJob job w :
  cfCalls (world_of (createMigrationJob E job w)) = cfCalls w.
Proof. frame. Qed.
Lemma cfCalls_updateDnsRecord config z r d w :
  cfCalls (world_of (updateDnsRecord E config z r d w)) =
    cfCalls w ++ [CfRequest.mk (ApiConfiguration.email config)
                    (ApiConfiguration.apiKey config) z r d].
Proof. frame. Qed.

(** *** the activity log and the configuration *)
Lemma log_addActivityLogEntry entry w :
  activityLog (storage (world_of (addActivityLogEntry E entry w))) =
    addActivityLogEntry_log
      (ActivityLogEntry.mk (randomUUID E (uuids w)) (NewActivity.timestamp entry)
         (NewActivity.type entry) (NewActivity.message entry)
         (NewActivity.details entry))
      (activityLog (storage w)).
Proof. frame. Qed.
Lemma log_updateMigrationJobProgress jobId c f w :
  activityLog (storage (world_of (updateMigrationJobProgress jobId c f w))) =
    activityLog (storage w).
Proof. frame. Qed.

Lemma config_newDate w :
  apiConfiguration (storage (world_of (newDate E w))) = apiConfiguration (storage w).
Proof. frame. Qed.
Lemma config_createMigrationJob job w :
  apiConfiguration (storage (world_of (createMigrationJob E job w))) =
    apiConfiguration (storage w).
Proof. frame. Qed.
Lemma config_saveMigrationRecordStatus sts w :
  apiConfiguration (storage (world_of (saveMigrationRecordStatus sts w))) =
    apiConfiguration (storage w).
Proof. frame. Qed.
Lemma config_addActivityLogEntry entry w :
  apiConfiguration (storage (world_of (addActivityLogEntry E entry w))) =
    apiConfiguration (storage w).
Proof. frame. Qed.
End Frames.

Create Rewrite HintDb frame.
#[local] Hint Rewrite
  jobs_newDate jobs_updateMigrationRecordStatus jobs_updateDnsRecord
  jobs_assign_content jobs_saveDnsRecords jobs_saveMigrationRecordStatus
  jobs_addActivityLogEntry
  statuses_newDate statuses_updateDnsRecord statuses_assign_content
  statuses_saveDnsRecords statuses_addActivityLogEntry
  statuses_updateMigrationJobProgress statuses_updateMigrationJobStatus
  statuses_createMigrationJob
  dns_newDate dns_updateMigrationRecordStatus dns_updateDnsRecord
  dns_addActivityLogEntry dns_updateMigrationJobProgress
  cfCalls_newDate cfCalls_updateMigrationRecordStatus cfCalls_assign_content
  cfCalls_saveDnsRecords cfCalls_saveMigrationRecordStatus
  cfCalls_addActivityLogEntry cfCalls_updateMigrationJobProgress
  cfCalls_updateMigrationJobStatus cfCalls_createMigrationJob
  log_updateMigrationJobProgress
  config_newDate config_createMigrationJob config_saveMigrationRecordStatus
  config_addActivityLogEntry : frame.

(** ** One turn of the loop, unfolded along its three paths *)

Section Turn.
Variable E : Env.
Variables (config : ApiConfiguration.t) (jobId oldIp newIp recordId : string).
Variables (c f : Z) (w : World).

(** No snapshot of that id: the block throws and the handler records it. *)
Lemma attempt_missing :
  find_record recordId w = None ->
  let key := recordStatusId jobId recordId in
  let w1 := world_of (updateMigrationRecordStatus E key "processing" None w) in
  let w2 := world_of (updateMigrationRecordStatus E key "failed"
                        (Some "Record not found") w1) in
  let w3 := world_of (newDate E w2) in
  let w4 := world_of (addActivityLogEntry E
                        (NewActivity.mk (now E (ticks w2)) error
                           "Failed to update DNS record: Record not found" None) w3) in
  attemptRecord E config jobId oldIp newIp recordId (c, f) w =
    (Ok (c, f + 1), w4, [w1; w2; w3; w4]).
Proof.
  intros Hf key w1 w2 w3 w4. unfold attemptRecord, try_catch, bind.
  rewrite run_updateMigrationRecordStatus; cbv beta iota. fold key; fold w1.
  rewrite run_getDnsRecords; cbv beta iota.
  unfold w1 at 1. rewrite dns_updateMigrationRecordStatus.
  fold (find_record recordId w). rewrite Hf. unfold throw; cbv beta iota.
  rewrite run_updateMigrationRecordStatus; cbv beta iota.
  rewrite run_newDate; cbv beta iota.
  rewrite run_addActivityLogEntry; cbv beta iota.
  reflexivity.
Qed.

(** The provider rejects the request: same handler, with its message. *)
Lemma attempt_rejected i record message :
  find_record recordId w = Some (i, record) ->
  cfUpdate E (cfCalls w) (patch_request config record newIp) = CfError message ->
  let key := recordStatusId jobId recordId in
  let w1 := world_of (updateMigrationRecordStatus E key "processing" None w) in
  let w2 := world_of (updateDnsRecord E config (DnsRecord.zoneId record)
                        (DnsRecord.id record)
                        (CfRequest.data (patch_request config record newIp)) w1) in
  let w3 := world_of (updateMigrationRecordStatus E key "failed"
                        (Some (str_or message "Unknown error")) w2) in
  let w4 := world_of (newDate E w3) in
  let w5 := world_of (addActivityLogEntry E
                        (NewActivity.mk (now E (ticks w3)) error
                           ("Failed to update DNS record: "
                              +:+ str_or message "Unknown error") None) w4) in
  attemptRecord E config jobId oldIp newIp recordId (c, f) w =
    (Ok (c, f + 1), w5, [w1; w2; w3; w4; w5]).
Proof.
  intros Hf Hcf key w1 w2 w3 w4 w5. unfold attemptRecord, try_catch, bind.
  rewrite run_updateMigrationRecordStatus; cbv beta iota. fold key; fold w1.
  rewrite run_getDnsRecords; cbv beta iota.
  unfold w1 at 1. rewrite dns_updateMigrationRecordStatus.
  fold (find_record recordId w). rewrite Hf; cbv beta iota.
  rewrite run_updateDnsRecord; cbv beta iota.
  unfold w1 at 1. rewrite cfCalls_updateMigrationRecordStatus.
  change (CfRequest.mk _ _ _ _ _) with (patch_request config record newIp).
  rewrite Hcf; cbv beta iota.
  rewrite run_updateMigrationRecordStatus; cbv beta iota.
  rewrite run_newDate; cbv beta iota.
  rewrite run_addActivityLogEntry; cbv beta iota.
  reflexivity.
Qed.

(** The provider accepts it: the snapshot is rewritten and saved. *)
Lemma attempt_updated i record :
  find_record recordId w = Some (i, record) ->
  cfUpdate E (cfCalls w) (patch_request config record newIp) = CfOk ->
  let key := recordStatusId jobId recordId in
  let w1 := world_of (updateMigrationRecordStatus E key "processing" None w) in
  let w2 := world_of (updateDnsRecord E config (DnsRecord.zoneId record)
                        (DnsRecord.id record)
                        (CfRequest.data (patch_request config record newIp)) w1) in
  let w3 := world_of (assign_content i newIp w2) in
  let w4 := world_of (saveDnsRecords
                        (<[i := DnsRecord.set_content newIp record]>
                           (JsMap.values (dnsRecords (storage w)))) w3) in
  let w5 := world_of (updateMigrationRecordStatus E key "completed" None w4) in
  let w6 := world_of (newDate E w5) in
  let w7 := world_of (addActivityLogEntry E
                        (NewActivity.mk (now E (ticks w5)) success
                           ("Updated DNS record for " +:+ DnsRecord.name record)
                           (Some (oldIp +:+ " → " +:+ newIp))) w6) in
  attemptRecord E config jobId oldIp newIp recordId (c, f) w =
    (Ok (c + 1, f), w7, [w1; w2; w3; w4; w5; w6; w7]).
Proof.
  intros Hf Hcf key w1 w2 w3 w4 w5 w6 w7. unfold attemptRecord, try_catch, bind.
  rewrite run_updateMigrationRecordStatus; cbv beta iota. fold key; fold w1.
  rewrite run_getDnsRecords; cbv beta iota.
  unfold w1 at 1 2. rewrite dns_updateMigrationRecordStatus.
  fold (find_record recordId w). rewrite Hf; cbv beta iota.
  rewrite run_updateDnsRecord; cbv beta iota.
  unfold w1 at 1. rewrite cfCalls_updateMigrationRecordStatus.
  change (CfRequest.mk _ _ _ _ _) with (patch_request config record newIp).
  rewrite Hcf; cbv beta iota.
  rewrite run_assign_content; cbv beta iota.
  rewrite run_saveDnsRecords; cbv beta iota.
  rewrite run_updateMigrationRecordStatus; cbv beta iota.
  rewrite run_newDate; cbv beta iota.
  rewrite run_addActivityLogEntry; cbv beta iota.
  reflexivity.
Qed.

(** The turn is the block followed by the progress update. *)
Lemma processRecord_run counters wa ta :
  attemptRecord E config jobId oldIp newIp recordId (c, f) w = (Ok counters, wa, ta) ->
  processRecord E config jobId oldIp newIp recordId (c, f) w =
    (Ok counters,
     world_of (updateMigrationJobProgress jobId (fst counters) (snd counters) wa),
     ta ++ [world_of (updateMigrationJobProgress jobId (fst counters) (snd counters) wa)]).
Proof.
  intros Ha. unfold processRecord, bind. rewrite Ha; cbv beta iota.
  rewrite run_updateMigrationJobProgress; cbv beta iota. reflexivity.
Qed.
End Turn.

(** ** Triples *)

Section Hoare.
Variable R : World -> World -> Prop.

Lemma hoare_ret {A : Type} (P : World -> Prop) (a : A) Q :
  (forall w, P w -> Q (Ok a) w) -> hoare R P (ret a) Q.
Proof. intros H w Hw. cbn. auto. Qed.


Lemma hoare_gets {A : Type} (P : World -> Prop) (f : World -> A) Q :
  (forall w, P w -> Q (Ok (f w)) w) -> hoare R P (gets f) Q.
Proof. intros H w Hw. cbn. auto. Qed.

(** A computation that is one write. *)
Lemma hoare_atomic {A : Type} (P : World -> Prop) (m : M A) Q :
  (forall w, trace_of (m w) = [world_of (m w)]) ->
  (forall w, P w -> R w (world_of (m w)) /\ Q (outcome_of (m w)) (world_of (m w))) ->
  hoare R P m Q.
Proof.
  intros Ht H w Hw. rewrite Ht. destruct (H w Hw) as [H1 H2].
  cbn. auto.
Qed.

Lemma hoare_bind {A B : Type} (P : World -> Prop) (m : M A) (f : A -> M B)
    (Q1 : Outcome A -> World -> Prop) Q :
  hoare R P m Q1 ->
  (forall a, hoare R (Q1 (Ok a)) (f a) Q) ->
  (forall e w, Q1 (Throw e) w -> Q (Throw e) w) ->
  hoare R P (bind m f) Q.
Proof.
  intros Hm Hf He w Hw. destruct (Hm w Hw) as (Hc & Hl & Hq).
  destruct (outcome_of (m w)) as [a|e] eqn:Ho.
  - rewrite (bind_ok _ _ _ _ Ho). cbn [trace_of world_of outcome_of fst snd].
    destruct (Hf a _ Hq) as (Hc2 & Hl2 & Hq2). split; [|split].
    + apply chain_app; [done|]. by rewrite <- Hl.
    + by rewrite last_app_world, <- Hl.
    + done.
  - rewrite (bind_throw _ _ _ _ Ho). cbn. auto.
Qed.



End Hoare.

Lemma respects_atomic {A : Type} (R : World -> World -> Prop) (m : M A) :
  (forall w, trace_of (m w) = [world_of (m w)]) ->
  (forall w, R w (world_of (m w))) ->
  respects R m.
Proof. intros Ht H w. rewrite Ht. cbn. auto. Qed.

Ltac one_write :=
  intros;
  first [ rewrite run_newDate | rewrite run_updateMigrationRecordStatus
        | rewrite run_updateMigrationJobProgress | rewrite run_updateMigrationJobStatus
        | rewrite run_assign_content | rewrite run_saveDnsRecords
        | rewrite run_saveMigrationRecordStatus | rewrite run_addActivityLogEntry
        | rewrite run_createMigrationJob | rewrite run_updateDnsRecord ];
  reflexivity.

Lemma respects_hoare {A : Type} (R : World -> World -> Prop) (m : M A) :
  respects R m -> hoare R (fun _ => True) m (fun _ _ => True).
Proof. intros H w _. destruct (H w). auto. Qed.

Lemma hoare_respects {A : Type} (R : World -> World -> Prop) (m : M A)
    (Q : Outcome A -> World -> Prop) :
  hoare R (fun _ => True) m Q -> respects R m.
Proof. intros H w. destruct (H w I) as (? & ? & _). auto. Qed.

(** ** The error message of a record status *)

Lemma truthy_str_or (message : string) : truthy (str_or message "Unknown error") = true.
Proof. unfold str_or. by destruct (truthy message) eqn:H. Qed.

Lemma or_null_failed (message : string) :
  or_null (Some (str_or message "Unknown error")) = Some (str_or message "Unknown error").
Proof. unfold or_null. by rewrite truthy_str_or. Qed.

Lemma engine_transition_ok st em rs :
  engine_transition st em ->
  status_ok (MigrationRecordStatus.mk (MigrationRecordStatus.id rs)
               (MigrationRecordStatus.jobId rs) (MigrationRecordStatus.recordId rs)
               st (or_null em) (Some 0)).
Proof.
  unfold status_ok. intros [| |message]; cbn [MigrationRecordStatus.errorMessage
    MigrationRecordStatus.status].
  - split; [done|discriminate].
  - split; [done|discriminate].
  - rewrite or_null_failed. split; [done|discriminate].
Qed.

Section ErrorMessage.
Variable E : Env.

Lemma keeps_frame (a b : World) : statuses b = statuses a -> keeps_statuses_ok a b.
Proof. unfold keeps_statuses_ok, statuses_ok. by intros ->. Qed.

Lemma keeps_updateMigrationRecordStatus k st em w :
  engine_transition st em ->
  keeps_statuses_ok w (world_of (updateMigrationRecordStatus E k st em w)).
Proof.
  intros Ht Hok k' rs'. rewrite statuses_updateMigrationRecordStatus.
  destruct (statuses w !! k) as [rs|] eqn:Hk; [|by apply Hok].
  rewrite lookup_insert. case_decide as Hkk; [|by apply Hok].
  intros [= <-]. destruct (engine_transition_ok st em rs Ht) as [H1 H2].
  split; [exact H1 | exact H2].
Qed.

Lemma keeps_saveMigrationRecordStatus sts w :
  Forall status_ok sts ->
  keeps_statuses_ok w (world_of (saveMigrationRecordStatus sts w)).
Proof.
  intros Hsts Hok. unfold statuses_ok.
  rewrite statuses_saveMigrationRecordStatus.
  unfold statuses_ok in Hok. revert Hok. generalize (statuses w) as m.
  induction Hsts as [|s sts Hs _ IH]; intros m Hok; [exact Hok|].
  cbn [fold_left]. apply IH. intros k rs. rewrite lookup_insert.
  case_decide; [by intros [= <-] | by apply Hok].
Qed.
Ltac keeps_write :=
  apply respects_atomic;
  [ one_write
  | intros;
    first [ apply keeps_updateMigrationRecordStatus; constructor
          | apply keeps_frame; autorewrite with frame; reflexivity ] ].

Ltac keeps :=
  repeat first
    [ apply respects_ret | apply respects_throw | apply respects_gets
    | keeps_write
    | apply respects_bind; [|intros ?]
    | apply respects_try; [|intros ?]
    | match goal with
      | |- respects _ (match ?x with _ => _ end) => destruct x
      end ].

Lemma keeps_attemptRecord config jobId oldIp newIp recordId counters :
  respects keeps_statuses_ok (attemptRecord E config jobId oldIp newIp recordId counters).
Proof. destruct counters as [c f]. unfold attemptRecord. keeps. Qed.

Lemma keeps_processRecord config jobId oldIp newIp recordId counters :
  respects keeps_statuses_ok (processRecord E config jobId oldIp newIp recordId counters).
Proof.
  unfold processRecord. apply respects_bind; [apply keeps_attemptRecord|].
  intros counters'. keeps.
Qed.

Lemma keeps_processRecords config jobId oldIp newIp recordIds counters :
  respects keeps_statuses_ok (processRecords E config jobId oldIp newIp recordIds counters).
Proof.
  revert counters. induction recordIds as [|recordId rest IH]; intros counters; cbn.
  - apply respects_ret.
  - apply respects_bind; [apply keeps_processRecord | intros; apply IH].
Qed.

Lemma keeps_processMigration jobId recordIds oldIp newIp :
  respects keeps_statuses_ok (processMigration E jobId recordIds oldIp newIp).
Proof.
  unfold processMigration. apply respects_try; [|intros message; keeps].
  apply respects_bind; [apply respects_gets|]. intros [config|]; [|apply respects_throw].
  apply respects_bind; [keeps|]. intros _.
  apply respects_bind; [apply keeps_processRecords|]. intros counters. keeps.
Qed.

(** The entries created at submission are pending, with no message. *)
Lemma initialStatuses_ok jobId recordIds :
  hoare keeps_statuses_ok (fun _ => True) (initialStatuses E jobId recordIds)
    (fun r _ => forall sts, r = Ok sts -> Forall status_ok sts).
Proof.
  induction recordIds as [|recordId rest IH]; cbn [initialStatuses].
  - apply hoare_ret. intros w _ sts [= <-]. constructor.
  - eapply hoare_bind with (Q1 := fun _ _ => True); [apply respects_hoare; keeps| |done].
    intros updatedAt. eapply hoare_bind; [exact IH| |].
    + intros sts. apply hoare_ret. intros w Hsts sts' [= <-].
      constructor; [|by apply Hsts]. split; [done|discriminate].
    + intros e w Hsts sts' [=].
Qed.

Lemma keeps_post_migration_start body :
  respects keeps_statuses_ok (post_migration_start E body).
Proof.
  unfold post_migration_start. apply respects_try; [|intros; apply respects_ret].
  destruct (body_oldIp body) as [oldIp|]; [|apply respects_ret].
  destruct (body_newIp body) as [newIp|]; [|apply respects_ret].
  destruct (body_recordIds body) as [recordIds|]; [|apply respects_ret].
  destruct (_ || _); [apply respects_ret|].
  apply respects_bind; [keeps|]. intros job. unfold afterJobCreated.
  apply (hoare_respects _ _ (fun _ _ => True)).
  eapply hoare_bind; [apply initialStatuses_ok| |done].
  intros sts. eapply hoare_bind with (Q1 := fun _ _ => True); [| |done].
  - apply hoare_atomic; [one_write|]. intros w Hsts. split; [|done].
    apply keeps_saveMigrationRecordStatus. by apply Hsts.
  - intros _. apply respects_hoare.
    apply respects_bind; [keeps|]. intros timestamp.
    apply respects_bind; [keeps|]. intros _.
    apply respects_bind; [apply keeps_processMigration|]. intros _. keeps.
Qed.
End ErrorMessage.

(** ** The counters of a job *)




Lemma same_counters_refl w : same_counters w w.
Proof. by intros j. Qed.







Section Counters.
Variable E : Env.













End Counters.

(** ** POST /api/migration/start, case by case *)

Section Start.
Variable E : Env.

(** The request is refused before anything is written. *)
Lemma start_rejected body w :
  match body_oldIp body, body_newIp body, body_recordIds body with
  | Some oldIp, Some newIp, Some recordIds =>
      negb (truthy oldIp) || negb (truthy newIp) || (Z.of_nat (length recordIds) =? 0)
  | _, _, _ => true
  end = true ->
  post_migration_start E body w =
    (Ok (res_status_json 400 [("message", JStr "Missing required parameters")]), w, []).
Proof.
  unfold post_migration_start, try_catch.
  destruct (body_oldIp body) as [oldIp|]; [|done].
  destruct (body_newIp body) as [newIp|]; [|done].
  destruct (body_recordIds body) as [recordIds|]; [|done].
  by intros ->.
Qed.


End Start.

(** ** Where a run ends *)

Section Final.
Variable E : Env.


Lemma lookup_updateMigrationRecordStatus_eq k st em w :
  statuses (world_of (updateMigrationRecordStatus E k st em w)) !! k =
    (fun rs => MigrationRecordStatus.mk (MigrationRecordStatus.id rs)
                 (MigrationRecordStatus.jobId rs) (MigrationRecordStatus.recordId rs)
                 st (or_null em) (Some (now E (ticks w)))) <$> statuses w !! k.
Proof.
  rewrite statuses_updateMigrationRecordStatus.
  destruct (statuses w !! k) as [rs|] eqn:Hk; [|by rewrite Hk].
  by rewrite lookup_insert_eq.
Qed.






End Final.

Section Submission.
Variable E : Env.



End Submission.

(** ** The cached listing as a [Map] *)

Lemma find_index_Some {A : Type} (p : A -> bool) (l : list A) (i : nat) (x : A) :
  find_index p l = Some (i, x) -> l !! i = Some x /\ p x = true.
Proof.
  revert i; induction l as [|y l IH]; intros i; cbn [find_index]; [done|].
  destruct (p y) eqn:Hy.
  - by intros [= <- <-].
  - destruct (find_index p l) as [[j z]|]; [|done].
    intros [= <- <-]. by apply IH.
Qed.

Lemma find_index_None {A : Type} (p : A -> bool) (l : list A) :
  find_index p l = None <-> forall x, In x l -> p x = false.
Proof.
  induction l as [|y l IH]; cbn [find_index]; [by split|].
  destruct (p y) eqn:Hy.
  - split; [done|]. intros H. specialize (H y (or_introl eq_refl)). congruence.
  - destruct (find_index p l) as [[j z]|].
    + split; [done|]. intros H. destruct IH as [_ IH].
      discriminate IH. intros x Hx. apply H. by right.
    + split; [|done]. intros _ x [<-|Hx]; [done|]. by apply IH.
Qed.

Lemma JsMap_set_fresh {V : Type} (k : string) (v : V) (m : JsMap.t V) :
  ~ In k (JsMap.keys m) -> JsMap.set k v m = m ++ [(k, v)].
Proof.
  induction m as [|[k' v'] m IH]; cbn; [done|]. intros Hk.
  destruct (String.eqb_spec k' k) as [->|Hne]; [by destruct Hk; left|].
  f_equal. apply IH. intros Hin. apply Hk. by right.
Qed.

Lemma saveDnsRecords_map_app (m1 m2 : JsMap.t DnsRecord.t) :
  NoDup (JsMap.keys (m1 ++ m2)) ->
  Forall (fun kv => fst kv = DnsRecord.id (snd kv)) m2 ->
  fold_left (fun m r => JsMap.set (DnsRecord.id r) r m) (JsMap.values m2) m1 = m1 ++ m2.
Proof.
  revert m1; induction m2 as [|[k v] m2 IH]; intros m1 Hnd Hid; cbn.
  - by rewrite app_nil_r.
  - inversion Hid as [|? ? Hk Hid']; subst. cbn in Hk. subst k.
    unfold JsMap.keys in Hnd. rewrite map_app in Hnd. cbn in Hnd.
    rewrite JsMap_set_fresh.
    + rewrite IH; [by rewrite <- app_assoc| |done].
      unfold JsMap.keys. rewrite !map_app. cbn. by rewrite <- app_assoc.
    + apply NoDup_app in Hnd as (_ & Hdisj & _). intros Hin.
      apply (Hdisj (DnsRecord.id v)); [by apply list_elem_of_In|]. by left.
Qed.

(** Saving the listing one has just read changes nothing. *)
Lemma saveDnsRecords_map_values (m : JsMap.t DnsRecord.t) :
  dns_wf m -> saveDnsRecords_map (JsMap.values m) = m.
Proof.
  intros [Hnd Hid]. unfold saveDnsRecords_map.
  by rewrite (saveDnsRecords_map_app [] m).
Qed.

Lemma JsMap_get_lookup {V : Type} (m : JsMap.t V) (i : nat) (k : string) (v : V) :
  NoDup (JsMap.keys m) -> m !! i = Some (k, v) -> JsMap.get k m = Some v.
Proof.
  revert i; induction m as [|[k' v'] m IH]; intros i Hnd; [done|].
  cbn in Hnd. apply NoDup_cons in Hnd as [Hk' Hnd].
  destruct i as [|i]; cbn.
  - intros [= -> ->]. by rewrite String.eqb_refl.
  - intros Hi. destruct (String.eqb_spec k' k) as [->|Hne]; [|by eapply IH].
    destruct Hk'. apply list_elem_of_In. unfold JsMap.keys.
    apply in_map_iff. exists (k, v). split; [done|].
    apply list_elem_of_In. by eapply list_elem_of_lookup_2.
Qed.

Lemma JsMap_get_insert_ne {V : Type} (m : JsMap.t V) (i : nat) (k k' : string) (v v' : V) :
  m !! i = Some (k, v) -> k' <> k ->
  JsMap.get k' (<[i := (k, v')]> m) = JsMap.get k' m.
Proof.
  revert i; induction m as [|[k0 v0] m IH]; intros i; [done|].
  destruct i as [|i]; cbn.
  - intros [= -> ->] Hne. by destruct (String.eqb_spec k k').
  - intros Hi Hne. destruct (String.eqb k0 k'); [done|]. by eapply IH.
Qed.

Lemma JsMap_keys_insert {V : Type} (m : JsMap.t V) (i : nat) (k : string) (v v' : V) :
  m !! i = Some (k, v) -> JsMap.keys (<[i := (k, v')]> m) = JsMap.keys m.
Proof.
  revert i; induction m as [|[k0 v0] m IH]; intros i; [done|].
  destruct i as [|i]; cbn.
  - by intros [= -> ->].
  - intros Hi. f_equal. by eapply IH.
Qed.

Lemma JsMap_values_insert {V : Type} (m : JsMap.t V) (i : nat) (k : string) (v' : V) :
  JsMap.values (<[i := (k, v')]> m) = <[i := v']> (JsMap.values m).
Proof.
  unfold JsMap.values. revert i; induction m as [|[k0 v0] m IH]; intros i; [done|].
  destruct i as [|i]; cbn; [done|]. f_equal. apply IH.
Qed.

Lemma JsMap_values_lookup {V : Type} (m : JsMap.t V) (i : nat) (v : V) :
  JsMap.values m !! i = Some v -> exists k, m !! i = Some (k, v).
Proof.
  unfold JsMap.values. rewrite list_lookup_fmap.
  destruct (m !! i) as [[k v0]|] eqn:Hm; cbn; [|discriminate].
  intros [= ->]. by exists k.
Qed.

(** ** The activity log *)

Lemma head_addActivityLogEntry_log entry log :
  head (addActivityLogEntry_log entry log) = Some entry.
Proof.
  unfold addActivityLogEntry_log. destruct (100 <? _); [|done].
  unfold slice0. change (100 <? 0) with false. cbv iota.
  change (Z.to_nat 100) with (S 99). reflexivity.
Qed.

(** ** The request of a turn *)

Lemma turn_cfCalls (E : Env) config jobId oldIp newIp recordId c f w :
  cfCalls (world_of (processRecord E config jobId oldIp newIp recordId (c, f) w)) =
    cfCalls w ++ match find_record recordId w with
                 | Some (_, record) => [patch_request config record newIp]
                 | None => []
                 end.
Proof.
  destruct (find_record recordId w) as [[i record]|] eqn:Hf.
  - destruct (cfUpdate E (cfCalls w) (patch_request config record newIp))
      as [|message] eqn:Hcf.
    + pose proof (attempt_updated E config jobId oldIp newIp recordId c f w i record
                    Hf Hcf) as H. cbv zeta in H.
      rewrite (processRecord_run _ _ _ _ _ _ _ _ _ _ _ _ H). cbn [world_of fst snd].
      autorewrite with frame. by rewrite cfCalls_updateDnsRecord, cfCalls_updateMigrationRecordStatus.
    + pose proof (attempt_rejected E config jobId oldIp newIp recordId c f w i record
                    message Hf Hcf) as H. cbv zeta in H.
      rewrite (processRecord_run _ _ _ _ _ _ _ _ _ _ _ _ H). cbn [world_of fst snd].
      autorewrite with frame. by rewrite cfCalls_updateDnsRecord, cfCalls_updateMigrationRecordStatus.
  - pose proof (attempt_missing E config jobId oldIp newIp recordId c f w Hf) as H.
    cbv zeta in H.
    rewrite (processRecord_run _ _ _ _ _ _ _ _ _ _ _ _ H). cbn [world_of fst snd].
    autorewrite with frame. by rewrite app_nil_r.
Qed.

(** ** What [saveDnsRecords] establishes *)

Lemma JsMap_keys_set {V : Type} (k : string) (v : V) (m : JsMap.t V) (x : string) :
  In x (JsMap.keys (JsMap.set k v m)) <-> x = k \/ In x (JsMap.keys m).
Proof.
  induction m as [|[k' v'] m IH]; cbn.
  - split; [intros [<-|[]]; by left | intros [->|[]]; by left].
  - destruct (String.eqb_spec k' k) as [->|Hne]; cbn.
    + split; [intros [<-|H]; [by left|right; by right] | intros [->|[<-|H]]; auto].
    + rewrite IH. split; [intros [<-|[->|H]]; auto | intros [->|[<-|H]]; auto].
Qed.

Lemma JsMap_NoDup_set {V : Type} (k : string) (v : V) (m : JsMap.t V) :
  NoDup (JsMap.keys m) -> NoDup (JsMap.keys (JsMap.set k v m)).
Proof.
  induction m as [|[k' v'] m IH]; cbn; intros Hnd.
  - apply NoDup_cons. split; [by intros ?%elem_of_nil|constructor].
  - apply NoDup_cons in Hnd as [Hk' Hnd].
    destruct (String.eqb_spec k' k) as [->|Hne]; cbn.
    + by apply NoDup_cons.
    + apply NoDup_cons. split; [|by apply IH].
      intros Hin%list_elem_of_In%JsMap_keys_set. destruct Hin as [->|Hin]; [done|].
      by apply Hk', list_elem_of_In.
Qed.

Lemma JsMap_Forall_set {V : Type} (P : string * V -> Prop) (k : string) (v : V)
    (m : JsMap.t V) :
  P (k, v) -> Forall P m -> Forall P (JsMap.set k v m).
Proof.
  intros Hkv. induction 1 as [|[k' v'] m Hx Hm IH]; cbn.
  - by constructor.
  - destruct (String.eqb k' k); by constructor.
Qed.

(** Whatever list is saved, the map is well formed: the cache of every
    reachable store is. *)
Lemma saveDnsRecords_map_wf (records : list DnsRecord.t) :
  dns_wf (saveDnsRecords_map records).
Proof.
  unfold saveDnsRecords_map.
  assert (H : dns_wf (@nil (string * DnsRecord.t))) by (split; constructor).
  revert H. generalize (@nil (string * DnsRecord.t)) as m.
  induction records as [|r records IH]; intros m Hm; [exact Hm|].
  cbn [fold_left]. apply IH. destruct Hm as [Hnd Hid]. split.
  - by apply JsMap_NoDup_set.
  - by apply JsMap_Forall_set.
Qed.

(** ** The activity log, bounded and newest first *)

Lemma addActivityLogEntry_log_cons entry log :
  addActivityLogEntry_log entry log = entry :: firstn 99 log.
Proof.
  unfold addActivityLogEntry_log. destruct (100 <? _) eqn:Hlen.
  - unfold slice0. change (100 <? 0) with false. cbv iota.
    change (Z.to_nat 100) with (S 99). reflexivity.
  - apply Z.ltb_ge in Hlen. cbn [length] in Hlen.
    rewrite firstn_all2; [done|]. lia.
Qed.

Lemma take_cons_take {A : Type} (n : nat) (l1 l2 : list A) (x : A) :
  (n <= 100)%nat ->
  firstn n (l1 ++ x :: firstn 99 l2) = firstn n (l1 ++ x :: l2).
Proof.
  revert n; induction l1 as [|y l1 IH]; intros n Hn; cbn [app].
  - destruct n as [|n]; [done|]. cbn [firstn]. f_equal.
    rewrite take_take. f_equal. lia.
  - destruct n as [|n]; [done|]. cbn [firstn]. f_equal. apply IH. lia.
Qed.

(** Writing a list of entries leaves the first hundred of them, the last
    written first, followed by what the log held. *)
Lemma addActivityLogEntries_log (E : Env) (entries : list NewActivity.t) :
  forall w,
    (length (activityLog (storage w)) <= 100)%nat ->
    exists written,
      outcome_of (addActivityLogEntries E entries w) = Ok written
      /\ Forall2 (fun entry logEntry =>
                    ActivityLogEntry.timestamp logEntry = NewActivity.timestamp entry
                    /\ ActivityLogEntry.type logEntry = NewActivity.type entry
                    /\ ActivityLogEntry.message logEntry = NewActivity.message entry
                    /\ ActivityLogEntry.details logEntry = NewActivity.details entry)
                 entries written
      /\ activityLog (storage (world_of (addActivityLogEntries E entries w)))
         = firstn 100 (rev written ++ activityLog (storage w)).
Proof.
  induction entries as [|entry rest IH]; intros w Hlen; cbn [addActivityLogEntries].
  - exists []. split; [done|]. split; [constructor|]. cbn.
    by rewrite firstn_all2.
  - rewrite (bind_ok _ _ _ _ (f_equal outcome_of (run_addActivityLogEntry E entry w))).
    cbn [outcome_of world_of fst snd].
    set (logEntry := ActivityLogEntry.mk _ _ _ _ _).
    set (w1 := world_of (addActivityLogEntry E entry w)).
    assert (Hlog1 : activityLog (storage w1) = logEntry :: firstn 99 (activityLog (storage w))).
    { unfold w1. by rewrite log_addActivityLogEntry, addActivityLogEntry_log_cons. }
    destruct (IH w1) as (written & Ho & Hall & Hlog).
    { rewrite Hlog1. cbn [length]. rewrite length_take. lia. }
    rewrite (bind_ok _ _ _ _ Ho). cbn [outcome_of world_of fst snd ret].
    exists (logEntry :: written). split; [done|]. split; [by constructor|].
    rewrite Hlog, Hlog1. cbn [rev]. rewrite <- app_assoc. cbn [app].
    by apply take_cons_take.
Qed.

(** ** GET /api/migration/:jobId/progress *)







(** * The specified properties *)



Lemma exampleWorld_statuses_ok : statuses_ok exampleWorld.
Proof. intros k rs H. unfold statuses in H. cbn in H. by rewrite lookup_empty in H. Qed.



(** The scenario, run: the second update is rejected and the fourth record
    is missing, yet the job completes with two successes and two
    failures. *)
Example scenario_partial_failure :
  jobs (world_of (post_migration_start exampleEnv exampleBody exampleWorld)) !! "uuid-0"
  = Some (MigrationJob.mk "uuid-0" "203.0.113.10" "198.51.100.7" 4 2 2 "completed"
            (Some 1700000000000) (Some 1700000000018)).
Proof. vm_compute. reflexivity. Qed.






(** C4. Empty-request rejection. Whatever the other fields and the store,
    a request whose [recordIds] is the empty array is answered with status
    400, and the handler writes nothing: the world is the one it started
    from (no job, no record status, no activity entry) and the trace of
    writes is empty. *)
Theorem empty_request_rejected (E : Env) (oldIp newIp : option string) (w : World) :
  post_migration_start E (mkStartBody oldIp newIp (Some [])) w =
    (Ok (res_status_json 400 [("message", JStr "Missing required parameters")]), w, []).
Proof.
  apply start_rejected. cbn [body_oldIp body_newIp body_recordIds].
  destruct oldIp as [oldIp|], newIp as [newIp|]; try reflexivity.
  cbn. by rewrite orb_true_r.
Qed.

(** C5. Missing-record handling. In one turn of the loop for a record id
    that has no snapshot in the cached listing (its status entry and the
    job being stored): the turn returns with [failed] incremented and
    [completed] unchanged; the record's status is ["failed"] with
    [errorMessage] exactly ["Record not found"]; the job's stored counters
    are the new ones; the newest activity entry is an [error] entry; no
    request is sent to the provider; and the loop goes on with the
    remaining records from the world the turn leaves. *)
Theorem missing_record (E : Env) (config : ApiConfiguration.t)
    (jobId oldIp newIp recordId : string) (rest : list string) (c f : Z) (w : World)
    (rs : MigrationRecordStatus.t) (job : MigrationJob.t) :
  (forall r, In r (JsMap.values (dnsRecords (storage w))) -> DnsRecord.id r <> recordId) ->
  statuses w !! recordStatusId jobId recordId = Some rs ->
  jobs w !! jobId = Some job ->
  let turn := processRecord E config jobId oldIp newIp recordId (c, f) w in
  let w' := world_of turn in
  outcome_of turn = Ok (c, f + 1)
  /\ (exists rs', statuses w' !! recordStatusId jobId recordId = Some rs'
                  /\ MigrationRecordStatus.status rs' = "failed"
                  /\ MigrationRecordStatus.errorMessage rs' = Some "Record not found")
  /\ (exists job', jobs w' !! jobId = Some job'
                   /\ MigrationJob.completedRecords job' = c
                   /\ MigrationJob.failedRecords job' = f + 1
                   /\ MigrationJob.status job' = MigrationJob.status job)
  /\ (exists entry, head (activityLog (storage w')) = Some entry
                    /\ ActivityLogEntry.type entry = error
                    /\ ActivityLogEntry.message entry
                       = "Failed to update DNS record: Record not found")
  /\ cfCalls w' = cfCalls w
  /\ processRecords E config jobId oldIp newIp (recordId :: rest) (c, f) w
     = (outcome_of (processRecords E config jobId oldIp newIp rest (c, f + 1) w'),
        world_of (processRecords E config jobId oldIp newIp rest (c, f + 1) w'),
        trace_of turn ++ trace_of (processRecords E config jobId oldIp newIp rest
                                     (c, f + 1) w')).
Proof.
  intros Hmiss Hrs Hjob turn w'. subst w' turn.
  assert (Hf : find_record recordId w = None).
  { apply find_index_None. intros r Hr. apply String.eqb_neq. by apply Hmiss. }
  pose proof (attempt_missing E config jobId oldIp newIp recordId c f w Hf) as Ha.
  cbv zeta in Ha.
  pose proof (processRecord_run _ _ _ _ _ _ _ _ _ _ _ _ Ha) as Hrun.
  cbn [processRecords]. rewrite (bind_ok _ _ _ (c, f + 1)) by (by rewrite Hrun).
  rewrite Hrun. cbn [outcome_of world_of trace_of fst snd].
  split; [reflexivity|]. split; [|split; [|split; [|split; [|reflexivity]]]].
  - autorewrite with frame. rewrite !lookup_updateMigrationRecordStatus_eq, Hrs.
    eexists. split; [reflexivity|]. by split.
  - rewrite jobs_updateMigrationJobProgress. autorewrite with frame.
    rewrite Hjob, lookup_insert_eq. eexists. split; [reflexivity|]. by repeat split.
  - rewrite log_updateMigrationJobProgress, log_addActivityLogEntry.
    rewrite head_addActivityLogEntry_log. eexists. split; [reflexivity|]. by split.
  - by autorewrite with frame.
Qed.

Lemma runningWorld_misses_rec4 :
  forall r, In r (JsMap.values (dnsRecords (storage runningWorld))) ->
            DnsRecord.id r <> "rec-4".
Proof. intros r Hr. vm_compute in Hr. by destruct Hr as [<-|[<-|[<-|[]]]]. Qed.

Lemma missing_record_witness :
  (forall r, In r (JsMap.values (dnsRecords (storage runningWorld))) ->
             DnsRecord.id r <> "rec-4")
  /\ statuses runningWorld !! recordStatusId "job-1" "rec-4"
     = Some (pendingStatus "job-1" "rec-4")
  /\ jobs runningWorld !! "job-1" = Some runningJob
  /\ (let turn := processRecord exampleEnv exampleConfig "job-1" "203.0.113.10"
                    "198.51.100.7" "rec-4" (1, 1) runningWorld in
      outcome_of turn = Ok (1, 1 + 1)
      /\ exists rs', statuses (world_of turn) !! recordStatusId "job-1" "rec-4" = Some rs'
                     /\ MigrationRecordStatus.status rs' = "failed"
                     /\ MigrationRecordStatus.errorMessage rs' = Some "Record not found").
Proof.
  assert (H2 : statuses runningWorld !! recordStatusId "job-1" "rec-4"
               = Some (pendingStatus "job-1" "rec-4")) by (vm_compute; reflexivity).
  assert (H3 : jobs runningWorld !! "job-1" = Some runningJob) by (vm_compute; reflexivity).
  split; [exact runningWorld_misses_rec4|]. split; [exact H2|]. split; [exact H3|].
  destruct (missing_record exampleEnv exampleConfig "job-1" "203.0.113.10" "198.51.100.7"
              "rec-4" ["rec-3"] 1 1 runningWorld (pendingStatus "job-1" "rec-4")
              runningJob runningWorld_misses_rec4 H2 H3) as (Ho & Hs & _).
  split; [exact Ho|exact Hs].
Defined.

(** C6. Unconditional rewrite. In the turn of a record that has a snapshot
    in the cache, exactly one request is sent, for that record's zone and
    id, with its own type, name, ttl and proxied flag and with
    [content = newIp]; this holds whatever the record's current content
    and whatever [oldIp] is, and the requests sent do not depend on
    [oldIp] at all: the content is never compared with the old value. *)
Theorem unconditional_rewrite (E : Env) (config : ApiConfiguration.t)
    (jobId oldIp newIp recordId : string) (c f : Z) (w : World)
    (i : nat) (record : DnsRecord.t) :
  find_record recordId w = Some (i, record) ->
  cfCalls (world_of (processRecord E config jobId oldIp newIp recordId (c, f) w))
    = cfCalls w ++ [patch_request config record newIp]
  /\ PatchData.content (CfRequest.data (patch_request config record newIp)) = newIp
  /\ forall oldIp',
       cfCalls (world_of (processRecord E config jobId oldIp' newIp recordId (c, f) w))
       = cfCalls (world_of (processRecord E config jobId oldIp newIp recordId (c, f) w)).
Proof.
  intros Hf. split; [|split; [reflexivity|]].
  - by rewrite turn_cfCalls, Hf.
  - intros oldIp'. by rewrite !turn_cfCalls.
Qed.

(** The third record of the scenario holds ["192.0.2.99"], not the old
    address ["203.0.113.10"], and is rewritten all the same. *)
Lemma unconditional_rewrite_witness :
  find_record "rec-3" runningWorld
    = Some (2%nat, exampleRecord "rec-3" "mail.example.com" "192.0.2.99")
  /\ DnsRecord.content (exampleRecord "rec-3" "mail.example.com" "192.0.2.99")
     <> "203.0.113.10"
  /\ cfCalls (world_of (processRecord exampleEnv exampleConfig "job-1" "203.0.113.10"
                          "198.51.100.7" "rec-3" (1, 1) runningWorld))
     = cfCalls runningWorld
       ++ [patch_request exampleConfig
             (exampleRecord "rec-3" "mail.example.com" "192.0.2.99") "198.51.100.7"].
Proof.
  split; [reflexivity|]. split; [discriminate|].
  exact (proj1 (unconditional_rewrite exampleEnv exampleConfig "job-1" "203.0.113.10"
                  "198.51.100.7" "rec-3" 1 1 runningWorld 2
                  (exampleRecord "rec-3" "mail.example.com" "192.0.2.99") eq_refl)).
Defined.

(** C7. Activity log bound and order. After any [addActivityLogEntry] the
    log holds at most 100 entries and is the new entry followed by the
    first 99 of the log before, so it stays newest first; when 100 were
    present, that is the log before without its last, oldest, entry; and
    after 101 entries are written to an empty log, [getActivityLog(limit)]
    with [limit >= 100] returns the last 100 written, newest first. *)
Theorem activity_log_bound (E : Env) :
  (forall entry w,
     let logEntry :=
       ActivityLogEntry.mk (randomUUID E (uuids w)) (NewActivity.timestamp entry)
         (NewActivity.type entry) (NewActivity.message entry)
         (NewActivity.details entry) in
     let log := activityLog (storage w) in
     let log' := activityLog (storage (world_of (addActivityLogEntry E entry w))) in
     (length log' <= 100)%nat
     /\ log' = logEntry :: firstn 99 log
     /\ (length log = 100%nat -> log' = logEntry :: removelast log))
  /\ (forall entries limit w,
        activityLog (storage w) = [] -> length entries = 101%nat -> 100 <= limit ->
        exists written,
          outcome_of (addActivityLogEntries E entries w) = Ok written
          /\ Forall2 (fun entry logEntry =>
                        ActivityLogEntry.timestamp logEntry = NewActivity.timestamp entry
                        /\ ActivityLogEntry.type logEntry = NewActivity.type entry
                        /\ ActivityLogEntry.message logEntry = NewActivity.message entry
                        /\ ActivityLogEntry.details logEntry = NewActivity.details entry)
                     entries written
          /\ outcome_of (getActivityLog (Some limit)
                           (world_of (addActivityLogEntries E entries w)))
             = Ok (rev (tl written))
          /\ length (rev (tl written)) = 100%nat).
Proof.
  split.
  - intros entry w logEntry log log'. subst log'.
    rewrite log_addActivityLogEntry, addActivityLogEntry_log_cons.
    fold logEntry. fold log. split; [|split; [reflexivity|]].
    + cbn [length]. rewrite length_take. lia.
    + intros Hlen. by rewrite removelast_firstn_len, Hlen.
  - intros entries limit w Hempty Hlen Hlimit.
    destruct (addActivityLogEntries_log E entries w) as (written & Ho & Hall & Hlog).
    { rewrite Hempty. cbn. lia. }
    exists written. split; [exact Ho|]. split; [exact Hall|].
    assert (Hw : length written = 101%nat).
    { by rewrite <- (Forall2_length _ _ _ Hall). }
    destruct written as [|first others]; [discriminate Hw|].
    cbn [tl]. cbn [length] in Hw.
    assert (Hlen' : length (rev others) = 100%nat) by (rewrite length_rev; lia).
    split; [|exact Hlen'].
    unfold getActivityLog, gets. cbn [outcome_of fst]. rewrite Hlog, Hempty.
    rewrite app_nil_r. cbn [rev]. rewrite take_app_length' by (by rewrite Hlen').
    change (default 50 (Some limit)) with limit.
    unfold slice0. destruct (limit <? 0) eqn:Hneg; [lia|].
    rewrite firstn_all2; [done|]. lia.
Qed.

Lemma activity_log_bound_witness :
  activityLog (storage initialWorld) = [] /\ length exampleEntries = 101%nat
  /\ 100 <= 150
  /\ exists written,
       outcome_of (addActivityLogEntries exampleEnv exampleEntries initialWorld) = Ok written
       /\ outcome_of (getActivityLog (Some 150)
                        (world_of (addActivityLogEntries exampleEnv exampleEntries
                                     initialWorld)))
          = Ok (rev (tl written))
       /\ length (rev (tl written)) = 100%nat.
Proof.
  split; [reflexivity|]. split; [reflexivity|]. split; [lia|].
  destruct (proj2 (activity_log_bound exampleEnv) exampleEntries 150 initialWorld
              eq_refl eq_refl ltac:(lia)) as (written & Ho & _ & Hget & Hlen).
  exists written. split; [exact Ho|]. split; [exact Hget|exact Hlen].
Defined.

(** Scenario D, run: of entries 1 to 101, [getActivityLog(150)] returns
    entries 101 down to 2. *)
Example scenario_log_eviction :
  match outcome_of (getActivityLog (Some 150)
                      (world_of (addActivityLogEntries exampleEnv exampleEntries
                                   initialWorld))) with
  | Ok log => map ActivityLogEntry.timestamp log
  | Throw _ => []
  end = map Z.of_nat (rev (seq 2 100)).
Proof. vm_compute. reflexivity. Qed.

(** C8. Error-message invariant. Along the whole run of a migration
    request, from any store in which every record status has a non-null
    [errorMessage] exactly when its [status] is ["failed"], the same holds
    at every point: for the entries created as pending and after each
    [updateMigrationRecordStatus] the engine performs. *)
Theorem error_message_invariant (E : Env) (body : StartBody) (w : World) :
  statuses_ok w ->
  Forall statuses_ok (trace_of (post_migration_start E body w))
  /\ statuses_ok (world_of (post_migration_start E body w)).
Proof.
  intros Hok. destruct (keeps_post_migration_start E body w) as [Hch Hl].
  assert (HF : Forall statuses_ok (trace_of (post_migration_start E body w))).
  { eapply chain_Forall; [exact Hch|exact Hok]. }
  split; [exact HF|]. rewrite Hl.
  destruct (trace_of (post_migration_start E body w)) as [|w1 t] eqn:Ht using rev_ind;
    [exact Hok|].
  rewrite last_app_world. cbn. rewrite Forall_app in HF. destruct HF as [_ HF].
  by inversion HF.
Qed.

Lemma error_message_invariant_witness :
  statuses_ok exampleWorld
  /\ Forall statuses_ok (trace_of (post_migration_start exampleEnv exampleBody exampleWorld))
  /\ statuses_ok (world_of (post_migration_start exampleEnv exampleBody exampleWorld)).
Proof.
  split; [exact exampleWorld_statuses_ok|].
  exact (error_message_invariant exampleEnv exampleBody exampleWorld
           exampleWorld_statuses_ok).
Defined.

(** C9. Snapshot frame effect. In the turn of a record whose update the
    provider accepts, from a well-formed cache (entries filed under their
    record's id, no id twice, as [saveDnsRecords] always leaves it): the
    cache afterwards is the cache before with the one entry of that record
    replaced, in place, by the same record with [content = newIp]; so the
    snapshot of that id has the new content and its other eight fields
    unchanged, the snapshot of every other id is the one before, the
    listing differs at that one position only, and the cache is still
    well formed. *)
Theorem snapshot_frame (E : Env) (config : ApiConfiguration.t)
    (jobId oldIp newIp recordId : string) (c f : Z) (w : World)
    (i : nat) (record : DnsRecord.t) :
  dns_wf (dnsRecords (storage w)) ->
  find_record recordId w = Some (i, record) ->
  cfUpdate E (cfCalls w) (patch_request config record newIp) = CfOk ->
  let w' := world_of (processRecord E config jobId oldIp newIp recordId (c, f) w) in
  let record' := DnsRecord.set_content newIp record in
  dnsRecords (storage w') = <[i := (recordId, record')]> (dnsRecords (storage w))
  /\ snapshot w recordId = Some record
  /\ snapshot w' recordId = Some record'
  /\ (DnsRecord.content record' = newIp
      /\ DnsRecord.id record' = DnsRecord.id record
      /\ DnsRecord.zoneId record' = DnsRecord.zoneId record
      /\ DnsRecord.zoneName record' = DnsRecord.zoneName record
      /\ DnsRecord.name record' = DnsRecord.name record
      /\ DnsRecord.type record' = DnsRecord.type record
      /\ DnsRecord.ttl record' = DnsRecord.ttl record
      /\ DnsRecord.proxied record' = DnsRecord.proxied record
      /\ DnsRecord.locked record' = DnsRecord.locked record)
  /\ (forall other, other <> recordId -> snapshot w' other = snapshot w other)
  /\ JsMap.values (dnsRecords (storage w'))
     = <[i := record']> (JsMap.values (dnsRecords (storage w)))
  /\ dns_wf (dnsRecords (storage w')).
Proof.
  intros [Hnd Hid] Hf Hcf w' record'. subst w'.
  destruct (find_index_Some _ _ _ _ Hf) as [Hi Hp].
  apply String.eqb_eq in Hp.
  destruct (JsMap_values_lookup _ _ _ Hi) as (k & Hk).
  assert (Hkid : k = recordId).
  { rewrite <- Hp. apply (proj1 (Forall_forall _ _) Hid (k, record)).
    by eapply list_elem_of_lookup_2. }
  subst k.
  set (m := dnsRecords (storage w)) in *.
  assert (Hwf' : dns_wf (<[i := (recordId, record')]> m)).
  { split.
    - by rewrite (JsMap_keys_insert m i recordId record record').
    - apply Forall_insert; [exact Hid|]. cbn. by rewrite <- Hp. }
  assert (Hdns : dnsRecords (storage (world_of (processRecord E config jobId oldIp newIp
                                                  recordId (c, f) w)))
                 = <[i := (recordId, record')]> m).
  { pose proof (attempt_updated E config jobId oldIp newIp recordId c f w i record
                  Hf Hcf) as H. cbv zeta in H.
    rewrite (processRecord_run _ _ _ _ _ _ _ _ _ _ _ _ H). cbn [world_of fst snd].
    autorewrite with frame. rewrite dns_saveDnsRecords. fold m. fold record'.
    rewrite <- (JsMap_values_insert m i recordId record').
    by apply saveDnsRecords_map_values. }
  assert (Hi' : (<[i := (recordId, record')]> m) !! i = Some (recordId, record')).
  { apply list_lookup_insert_eq. by eapply lookup_lt_Some. }
  unfold snapshot. rewrite Hdns. fold m.
  split; [reflexivity|]. split; [by eapply JsMap_get_lookup|].
  split; [eapply JsMap_get_lookup; [apply Hwf'|exact Hi']|].
  split; [by repeat split|].
  split; [intros other Hne; by eapply JsMap_get_insert_ne|].
  split; [apply JsMap_values_insert|exact Hwf'].
Qed.

Lemma snapshot_frame_witness :
  dns_wf (dnsRecords (storage runningWorld))
  /\ find_record "rec-1" runningWorld
     = Some (0%nat, exampleRecord "rec-1" "www.example.com" "203.0.113.10")
  /\ cfUpdate exampleEnv (cfCalls runningWorld)
       (patch_request exampleConfig
          (exampleRecord "rec-1" "www.example.com" "203.0.113.10") "198.51.100.7") = CfOk
  /\ snapshot (world_of (processRecord exampleEnv exampleConfig "job-1" "203.0.113.10"
                           "198.51.100.7" "rec-1" (0, 0) runningWorld)) "rec-1"
     = Some (exampleRecord "rec-1" "www.example.com" "198.51.100.7").
Proof.
  split; [apply saveDnsRecords_map_wf|]. split; [reflexivity|]. split; [reflexivity|].
  exact (proj1 (proj2 (proj2
    (snapshot_frame exampleEnv exampleConfig "job-1" "203.0.113.10" "198.51.100.7"
       "rec-1" 0 0 runningWorld 0
       (exampleRecord "rec-1" "www.example.com" "203.0.113.10")
       (saveDnsRecords_map_wf _) eq_refl eq_refl)))).
Defined.

(** C10. API key never exposed on read. For every stored configuration the
    response of GET /api/config has status 200 and exactly the properties
    [id], [email], [isConnected], [lastConnected] and [hasApiKey]: no
    [apiKey] property, and [hasApiKey] is the boolean "the key is not
    empty"; the store is not written; and a stored configuration that
    differs only in its key, both keys non-empty, gets the same
    response. *)
Theorem api_key_not_exposed (config : ApiConfiguration.t) (w : World) :
  apiConfiguration (storage w) = Some config ->
  (exists resp,
     get_config w = (Ok resp, w, [])
     /\ code resp = 200
     /\ map fst (body resp) = ["id"; "email"; "isConnected"; "lastConnected"; "hasApiKey"]
     /\ has_key "apiKey" (body resp) = false
     /\ get_key "hasApiKey" (body resp)
        = Some (JBool (truthy (ApiConfiguration.apiKey config))))
  /\ (forall config' w',
        apiConfiguration (storage w') = Some config' ->
        ApiConfiguration.id config' = ApiConfiguration.id config ->
        ApiConfiguration.email config' = ApiConfiguration.email config ->
        ApiConfiguration.isConnected config' = ApiConfiguration.isConnected config ->
        ApiConfiguration.lastConnected config' = ApiConfiguration.lastConnected config ->
        truthy (ApiConfiguration.apiKey config) = true ->
        truthy (ApiConfiguration.apiKey config') = true ->
        outcome_of (get_config w') = outcome_of (get_config w)).
Proof.
  intros Hc. split.
  - eexists. unfold get_config, bind. rewrite run_getApiConfiguration, Hc.
    cbv beta iota. split; [reflexivity|]. by repeat split.
  - intros config' w' Hc' Hid Hemail Hconn Hlast Hk Hk'.
    unfold get_config, bind. rewrite !run_getApiConfiguration, Hc, Hc'.
    cbv beta iota. cbn [outcome_of fst ret]. do 2 f_equal.
    unfold json_of_config. rewrite Hid, Hemail, Hconn, Hlast, Hk, Hk'. reflexivity.
Qed.

Lemma api_key_not_exposed_witness :
  apiConfiguration (storage exampleWorld) = Some exampleConfig
  /\ exists resp,
       get_config exampleWorld = (Ok resp, exampleWorld, [])
       /\ code resp = 200
       /\ map fst (body resp) = ["id"; "email"; "isConnected"; "lastConnected"; "hasApiKey"]
       /\ has_key "apiKey" (body resp) = false
       /\ get_key "hasApiKey" (body resp)
          = Some (JBool (truthy (ApiConfiguration.apiKey exampleConfig))).
Proof.
  split; [reflexivity|].
  exact (proj1 (api_key_not_exposed exampleConfig exampleWorld eq_refl)).
Defined.
